(** * Verification of static/js/main.js

    A shallow embedding of the page script: the DOM is a tree of element
    records addressed by paths, the script's functions run in a small
    state-and-exception monad over a [World] (document, listener table,
    in-flight requests, log of observable effects, random source), and
    JavaScript numbers are IEEE 754 binary64 values ([spec_float]). *)

From Stdlib Require Import ZArith QArith Lia.
From Stdlib Require Import Floats.SpecFloat.
From stdpp Require Import base option list strings gmap.

Close Scope Q_scope.

Local Open Scope string_scope.

(** ** Values stored in the DOM *)

(** JavaScript numbers: binary64. *)
Definition prec : Z := 53.
Definition emax : Z := 1024.
Definition number := spec_float.

(** A value assigned to a style property.  A template literal such as
    [`${x}%`] is kept as the number with its unit. *)
Inductive CssValue :=
  | Keyword (k : string)
  | Percent (x : number)
  | Px (x : number)
  | Seconds (x : number).

Record File := mkFile { file_name : string; file_size : N }.

Record Element := mkElement {
  el_tag : string;                  (* lower-case local name *)
  el_id : string;
  el_classList : list string;
  el_style : gmap string CssValue;
  el_type : option string;          (* the [type] property; None = undefined *)
  el_src : string;
  el_paused : bool;
  el_dataset : gmap string string;
  el_files : list File
}.

Definition set_classList (cl : list string) (e : Element) : Element :=
  mkElement (el_tag e) (el_id e) cl (el_style e) (el_type e) (el_src e)
            (el_paused e) (el_dataset e) (el_files e).
Definition set_style (k : string) (v : CssValue) (e : Element) : Element :=
  mkElement (el_tag e) (el_id e) (el_classList e) (<[k:=v]> (el_style e))
            (el_type e) (el_src e) (el_paused e) (el_dataset e) (el_files e).
Definition set_type (t : string) (e : Element) : Element :=
  mkElement (el_tag e) (el_id e) (el_classList e) (el_style e) (Some t)
            (el_src e) (el_paused e) (el_dataset e) (el_files e).
Definition set_src (s : string) (e : Element) : Element :=
  mkElement (el_tag e) (el_id e) (el_classList e) (el_style e) (el_type e) s
            (el_paused e) (el_dataset e) (el_files e).
Definition set_paused (b : bool) (e : Element) : Element :=
  mkElement (el_tag e) (el_id e) (el_classList e) (el_style e) (el_type e)
            (el_src e) b (el_dataset e) (el_files e).
Definition set_files (fs : list File) (e : Element) : Element :=
  mkElement (el_tag e) (el_id e) (el_classList e) (el_style e) (el_type e)
            (el_src e) (el_paused e) (el_dataset e) fs.

(** [DOMTokenList]: an ordered set of tokens. *)
Definition token_contains (t : string) (cl : list string) : bool :=
  bool_decide (t ∈ cl).
Definition token_add (t : string) (cl : list string) : list string :=
  if token_contains t cl then cl else (cl ++ [t])%list.
Definition token_remove (t : string) (cl : list string) : list string :=
  filter (λ c, c ≠ t) cl.

(** [document.createElement(tag)] *)
Definition createElement (tag : string) : Element :=
  mkElement tag "" [] ∅ None "" true ∅ [].

(** ** The document tree *)

#[local] Unset Elimination Schemes.
Inductive Node := Elem (el : Element) (children : list Node).
#[local] Set Elimination Schemes.

Definition node_el (n : Node) : Element := let '(Elem e _) := n in e.
Definition node_children (n : Node) : list Node := let '(Elem _ cs) := n in cs.

(** An element is referred to by the child indices leading to it from the
    root, so two references are the same object iff the paths are equal. *)
Definition Path := list nat.

Fixpoint node_at (n : Node) (p : Path) : option Node :=
  match p with
  | [] => Some n
  | i :: p' =>
      match node_children n !! i with
      | Some c => node_at c p'
      | None => None
      end
  end.

Definition el_at (n : Node) (p : Path) : option Element :=
  node_el <$> node_at n p.

Fixpoint alter_at (f : Node → Node) (p : Path) (n : Node) : Node :=
  match p with
  | [] => f n
  | i :: p' => Elem (node_el n) (alter (alter_at f p') i (node_children n))
  end.

(** Assignment to properties of the element at [p]. *)
Definition update_el (g : Element → Element) (p : Path) (n : Node) : Node :=
  alter_at (λ m, Elem (g (node_el m)) (node_children m)) p n.

(** [parent.appendChild(child)] for a freshly created child. *)
Definition append_child (c : Node) (p : Path) (n : Node) : Node :=
  alter_at (λ m, Elem (node_el m) (node_children m ++ [c])%list) p n.

Section Search.
Context {A : Type} (search : A → option Path).

(** First hit among siblings, in document order. *)
Fixpoint first_in (cs : list A) (i : nat) : option Path :=
  match cs with
  | [] => None
  | c :: cs' =>
      match search c with
      | Some p => Some (i :: p)
      | None => first_in cs' (S i)
      end
  end.
End Search.

(** First element in tree order (the node itself included) satisfying [P]. *)
Fixpoint find_node (P : Element → bool) (n : Node) : option Path :=
  match n with
  | Elem e cs => if P e then Some [] else first_in (find_node P) cs 0
  end.

Definition has_id (id : string) (e : Element) : bool :=
  bool_decide (el_id e = id).

(** [document.getElementById(id)]: the first element in tree order whose id
    is [id]; the empty string names no element. *)
Definition getElementById (d : Node) (id : string) : option Path :=
  if bool_decide (id = "") then None else find_node (has_id id) d.

Definition has_tag (tag : string) (e : Element) : bool :=
  bool_decide (el_tag e = tag).

(** [el.querySelector(tag)] for a type selector: the first descendant of the
    element at [p] with that tag. *)
Definition querySelector (d : Node) (p : Path) (tag : string) : option Path :=
  match node_at d p with
  | Some n => (λ q, (p ++ q)%list) <$> first_in (find_node (has_tag tag)) (node_children n) 0
  | None => None
  end.

(** The search half of [querySelector], relative to the start element. *)
Definition query_in (d : Node) (p : Path) (tag : string) : option Path :=
  match node_at d p with
  | Some n => first_in (find_node (has_tag tag)) (node_children n) 0
  | None => None
  end.

(** [el.previousElementSibling] *)
Fixpoint previousElementSibling (n : Node) (p : Path) : option Path :=
  match p with
  | [] => None
  | [i] =>
      match i, node_children n !! i with
      | S j, Some _ => Some [j]
      | _, _ => None
      end
  | i :: p' =>
      match node_children n !! i with
      | Some c => (i ::.) <$> previousElementSibling c p'
      | None => None
      end
  end.

(** ** Events, listeners, effects *)

Inductive EventType := Click | Dragover | Dragleave | Drop | Change.

#[global] Instance EventType_eq_dec : EqDecision EventType.
Proof. solve_decision. Defined.

(** An event as the handlers see it: its type and, for drag events,
    [e.dataTransfer.files]. *)
Record Event := mkEvent { ev_type : EventType; ev_files : list File }.

(** The arrow functions [setupDropZone] registers, with the variables they
    close over. *)
Inductive Listener :=
  | OnZoneClick (fileInput : Path)
  | OnZoneDragover (dropZone : Path)
  | OnZoneDragleave (dropZone : Path)
  | OnZoneDrop (dropZone fileInput : Path) (uploadUrl : string)
  | OnInputChange (fileInput : Path) (uploadUrl : string).

Record Registration := mkReg {
  reg_target : Path; reg_type : EventType; reg_listener : Listener
}.

#[local] Unset Elimination Schemes.
Inductive Json :=
  | JNull | JBool (b : bool) | JNum (z : Z) | JStr (s : string)
  | JArr (items : list Json) | JObj (fields : list (string * Json)).
#[local] Set Elimination Schemes.

Inductive Error :=
  | TypeError (msg : string)
  | SyntaxError (msg : string).

Definition FormData := list (string * File).

Inductive Body := JsonBody (data : Json) | OtherBody (raw : string).
Record Response := mkResponse { status : nat; body : Body }.

(** How a [fetch] ends: the promise rejects (no response was received) or
    fulfils with a response of any status. *)
Inductive FetchOutcome :=
  | FetchFailed
  | FetchResponse (r : Response).

(** Everything the script does that is visible outside the DOM tree. *)
Inductive Effect :=
  | EFetch (url method : string) (payload : FormData)
  | EConsoleLog (msg : string) (data : Json)
  | EConsoleError (msg : string) (err : Error)
  | EReload
  | EAlert (msg : string)
  | EPreventDefault
  | EClick (target : Path)
  | EPlay (target : Path)
  | EPause (target : Path).

(** The reaction attached to a promise that has not settled yet. *)
Inductive Reaction := UploadReaction.

Record World := mkWorld {
  document : Node;
  listeners : list Registration;
  pending : list Reaction;
  effects : list Effect;           (* oldest first *)
  random_source : nat → number;    (* the values Math.random() will return *)
  random_used : nat
}.

(** ** The monad of script code: state and exceptions *)

Inductive Completion (A : Type) :=
  | Normal (a : A) (w : World)
  | Throw (e : Error) (w : World).
Arguments Normal {A} a w.
Arguments Throw {A} e w.

Definition world_of {A} (c : Completion A) : World :=
  match c with Normal _ w => w | Throw _ w => w end.

Definition JS (A : Type) : Type := World → Completion A.

#[global] Instance JS_ret : MRet JS := λ A a w, Normal a w.
#[global] Instance JS_bind : MBind JS := λ A B f m w,
  match m w with
  | Normal a w' => f a w'
  | Throw e w' => Throw e w'
  end.

Definition throw {A} (e : Error) : JS A := λ w, Throw e w.
Definition read {A} (f : World → A) : JS A := λ w, Normal (f w) w.
Definition modify (f : World → World) : JS unit := λ w, Normal () (f w).

Definition with_document (f : Node → Node) (w : World) : World :=
  mkWorld (f (document w)) (listeners w) (pending w) (effects w)
          (random_source w) (random_used w).
Definition with_listeners (f : list Registration → list Registration) (w : World) : World :=
  mkWorld (document w) (f (listeners w)) (pending w) (effects w)
          (random_source w) (random_used w).
Definition with_pending (f : list Reaction → list Reaction) (w : World) : World :=
  mkWorld (document w) (listeners w) (f (pending w)) (effects w)
          (random_source w) (random_used w).
Definition with_effects (f : list Effect → list Effect) (w : World) : World :=
  mkWorld (document w) (listeners w) (pending w) (f (effects w))
          (random_source w) (random_used w).
Definition with_random_used (f : nat → nat) (w : World) : World :=
  mkWorld (document w) (listeners w) (pending w) (effects w)
          (random_source w) (f (random_used w)).

Definition emit (e : Effect) : JS unit := modify (with_effects (λ l, (l ++ [e])%list)).

(** Reading a property of a possibly-null reference throws a TypeError. *)
Definition deref (r : option Path) : JS Path :=
  match r with
  | Some p => mret p
  | None => throw (TypeError "Cannot read properties of null")
  end.

Definition get_prop {A} (f : Element → A) (dflt : A) (p : Path) : JS A :=
  read (λ w, default dflt (f <$> el_at (document w) p)).
Definition set_prop (g : Element → Element) (p : Path) : JS unit :=
  modify (with_document (update_el g p)).

Definition classList_add (p : Path) (t : string) : JS unit :=
  set_prop (λ e, set_classList (token_add t (el_classList e)) e) p.
Definition classList_remove (p : Path) (t : string) : JS unit :=
  set_prop (λ e, set_classList (token_remove t (el_classList e)) e) p.
Definition classList_contains (p : Path) (t : string) : JS bool :=
  get_prop (λ e, token_contains t (el_classList e)) false p.

(** Only media elements have [play] and [pause]; calling a missing method
    throws. *)
Definition is_media (e : Element) : bool :=
  bool_decide (el_tag e = "video") || bool_decide (el_tag e = "audio").

Definition play (p : Path) : JS unit :=
  m ← get_prop is_media false p;
  if m : bool then set_prop (set_paused false) p ;; emit (EPlay p)
  else throw (TypeError "videoPlayer.play is not a function").

Definition pause (p : Path) : JS unit :=
  m ← get_prop is_media false p;
  if m : bool then set_prop (set_paused true) p ;; emit (EPause p)
  else throw (TypeError "videoPlayer.pause is not a function").

(** JavaScript truthiness of an optional string. *)
Definition truthy (s : option string) : bool :=
  match s with
  | Some s => negb (bool_decide (s = ""))
  | None => false
  end.

(** ** Modal handling (main.js lines 21-54) *)

Definition openModal (modalId : string) (videoSrc : option string) : JS unit :=
  modal ← read (λ w, getElementById (document w) modalId);
  match modal with
  | Some modal =>
      set_prop (set_style "display" (Keyword "block")) modal ;;
      if bool_decide (modalId = "videoPlayerModal") && truthy videoSrc then
        videoPlayer ← read (λ w, getElementById (document w) "videoPlayer");
        match videoPlayer with
        | Some videoPlayer =>
            set_prop (set_src (default "" videoSrc)) videoPlayer ;;
            play videoPlayer
        | None => mret ()
        end
      else mret ()
  | None => mret ()
  end.

Definition closeModal (modalId : string) : JS unit :=
  modal ← read (λ w, getElementById (document w) modalId);
  match modal with
  | Some modal =>
      set_prop (set_style "display" (Keyword "none")) modal ;;
      if bool_decide (modalId = "videoPlayerModal") then
        videoPlayer ← read (λ w, getElementById (document w) "videoPlayer");
        match videoPlayer with
        | Some videoPlayer =>
            pause videoPlayer ;;
            set_prop (set_src "") videoPlayer
        | None => mret ()
        end
      else mret ()
  | None => mret ()
  end.

(** [window.onclick]; [target] is [event.target]. *)
Definition window_onclick (target : Path) : JS unit :=
  isModal ← classList_contains target "modal";
  if isModal : bool then
    id ← get_prop el_id "" target;
    closeModal id
  else mret ().

(** ** Password visibility toggle (lines 57-69) *)

Definition togglePassword (button : Path) : JS unit :=
  input ← read (λ w, previousElementSibling (document w) button);
  icon ← read (λ w, querySelector (document w) button "i");
  input' ← deref input;
  type ← get_prop el_type None input';
  if bool_decide (type = Some "password") then
    set_prop (set_type "text") input' ;;
    icon' ← deref icon;
    classList_remove icon' "fa-eye" ;;
    classList_add icon' "fa-eye-slash"
  else
    set_prop (set_type "password") input' ;;
    icon' ← deref icon;
    classList_remove icon' "fa-eye-slash" ;;
    classList_add icon' "fa-eye".

(** ** Loops *)

(** [for (let i = start; i < start + count; i++) body(i)] *)
Fixpoint for_from (i count : nat) (body : nat → JS unit) : JS unit :=
  match count with
  | 0 => mret ()
  | S count' => body i ;; for_from (S i) count' body
  end.

(** The same loop over a local variable that the body updates. *)
Fixpoint for_acc {T : Type} (i count : nat) (body : nat → T → T) (s : T) : T :=
  match count with
  | 0 => s
  | S count' => for_acc (S i) count' body (body i s)
  end.

(** ** Promises *)

Inductive Settled (A : Type) :=
  | Fulfilled (a : A)
  | Rejected (e : Error).
Arguments Fulfilled {A} a.
Arguments Rejected {A} e.

(** [p.then(cb)] once [p] has settled: a rejection passes through, and an
    exception thrown by the callback rejects the derived promise. *)
Definition promise_then {A B} (p : Settled A) (cb : A → JS (Settled B)) : JS (Settled B) :=
  match p with
  | Fulfilled a => λ w,
      match cb a w with
      | Normal s w' => Normal s w'
      | Throw e w' => Normal (Rejected e) w'
      end
  | Rejected e => mret (Rejected e)
  end.

(** [p.catch(cb)] *)
Definition promise_catch {A} (p : Settled A) (cb : Error → JS (Settled A)) : JS (Settled A) :=
  match p with
  | Fulfilled a => mret (Fulfilled a)
  | Rejected e => λ w,
      match cb e w with
      | Normal s w' => Normal s w'
      | Throw e' w' => Normal (Rejected e') w'
      end
  end.

Definition fetch_result (o : FetchOutcome) : Settled Response :=
  match o with
  | FetchFailed => Rejected (TypeError "Failed to fetch")
  | FetchResponse r => Fulfilled r
  end.

(** [response.json()] *)
Definition response_json (r : Response) : Settled Json :=
  match body r with
  | JsonBody data => Fulfilled data
  | OtherBody _ => Rejected (SyntaxError "Unexpected token in JSON")
  end.

(** [fetch(url, {method, body})]: the request goes out and the reaction
    chain waits for the outcome. *)
Definition fetch (url method : string) (payload : FormData) (k : Reaction) : JS unit :=
  emit (EFetch url method payload) ;;
  modify (with_pending (λ l, (l ++ [k])%list)).

(** ** Drag and drop upload (lines 72-133) *)

Definition handleUpload (files : list File) (url : string) : JS unit :=
  let formData : FormData :=
    for_acc 0 (length files)
      (λ i fd, match files !! i with
               | Some f => (fd ++ [("file", f)])%list
               | None => fd
               end) [] in
  fetch url "POST" formData UploadReaction.

(** The [.then(...).then(...).catch(...)] chain of [handleUpload], run when
    the fetch promise settles with outcome [o]. *)
Definition upload_reaction (o : FetchOutcome) : JS unit :=
  p1 ← promise_then (fetch_result o) (λ response, mret (response_json response));
  p2 ← promise_then p1 (λ data,
         emit (EConsoleLog "Upload success:" data) ;;
         emit EReload ;;
         mret (Fulfilled ()));
  _ ← promise_catch p2 (λ error,
         emit (EConsoleError "Upload error:" error) ;;
         emit (EAlert "An error occurred during upload.") ;;
         mret (Fulfilled ()));
  mret ().

(** The environment settles the [k]-th in-flight request. *)
Definition settle (k : nat) (o : FetchOutcome) : JS unit :=
  r ← read (λ w, pending w !! k);
  match r with
  | Some UploadReaction => modify (with_pending (delete k)) ;; upload_reaction o
  | None => mret ()
  end.

Definition addEventListener (target : Path) (ty : EventType) (l : Listener) : JS unit :=
  modify (with_listeners (λ ls, (ls ++ [mkReg target ty l])%list)).

Definition setupDropZone (zoneId inputId : string) : JS unit :=
  dropZone ← read (λ w, getElementById (document w) zoneId);
  fileInput ← read (λ w, getElementById (document w) inputId);
  match dropZone, fileInput with
  | Some dropZone, Some fileInput =>
      uploadUrl ← get_prop (λ e, el_dataset e !! "uploadUrl") None fileInput;
      if negb (truthy uploadUrl) then mret ()
      else
        let uploadUrl := default "" uploadUrl in
        addEventListener dropZone Click (OnZoneClick fileInput) ;;
        addEventListener dropZone Dragover (OnZoneDragover dropZone) ;;
        addEventListener dropZone Dragleave (OnZoneDragleave dropZone) ;;
        addEventListener dropZone Drop (OnZoneDrop dropZone fileInput uploadUrl) ;;
        addEventListener fileInput Change (OnInputChange fileInput uploadUrl)
  | _, _ => mret ()
  end.

(** The bodies of the registered arrow functions. *)
Definition run_listener (l : Listener) (e : Event) : JS unit :=
  match l with
  | OnZoneClick fileInput => emit (EClick fileInput)
  | OnZoneDragover dropZone =>
      emit EPreventDefault ;;
      classList_add dropZone "dragover"
  | OnZoneDragleave dropZone =>
      classList_remove dropZone "dragover"
  | OnZoneDrop dropZone fileInput uploadUrl =>
      emit EPreventDefault ;;
      classList_remove dropZone "dragover" ;;
      let files := ev_files e in
      if bool_decide (length files ≠ 0) then
        set_prop (set_files files) fileInput ;;
        handleUpload files uploadUrl
      else mret ()
  | OnInputChange fileInput uploadUrl =>
      files ← get_prop el_files [] fileInput;
      if bool_decide (length files ≠ 0) then handleUpload files uploadUrl
      else mret ()
  end.

(** An exception escaping a listener is reported on the console and the
    remaining listeners still run. *)
Definition guarded (m : JS unit) : JS unit := λ w,
  match m w with
  | Normal _ w' => Normal () w'
  | Throw e w' => Normal () (with_effects (λ l, (l ++ [EConsoleError "Uncaught" e])%list) w')
  end.

Fixpoint run_all (ls : list Listener) (e : Event) : JS unit :=
  match ls with
  | [] => mret ()
  | l :: ls' => guarded (run_listener l e) ;; run_all ls' e
  end.

Definition listeners_for (target : Path) (ty : EventType) (regs : list Registration) : list Listener :=
  reg_listener <$> filter (λ r, reg_target r = target ∧ reg_type r = ty) regs.

(** The event [e] is delivered to the listeners of [target]. *)
Definition fire (target : Path) (e : Event) : JS unit :=
  ls ← read (λ w, listeners_for target (ev_type e) (listeners w));
  run_all ls e.

(** ** Animated star background (lines 4-18) *)

Definition num (z : Z) : number := binary_normalize prec emax z 0 false.
Definition mul (x y : number) : number := SFmul prec emax x y.
Definition add (x y : number) : number := SFadd prec emax x y.

Definition Math_random : JS number :=
  x ← read (λ w, random_source w (random_used w));
  modify (with_random_used S) ;;
  mret x.

Definition numberOfStars : nat := 150.

Definition make_star : JS Element :=
  let star := createElement "div" in
  let star := set_classList ["star"] star in
  r ← Math_random;
  let star := set_style "top" (Percent (mul r (num 100))) star in
  r ← Math_random;
  let star := set_style "left" (Percent (mul r (num 100))) star in
  r ← Math_random;
  let star := set_style "width" (Px (mul r (num 3))) star in
  let star := match el_style star !! "width" with
              | Some v => set_style "height" v star
              | None => star
              end in
  r ← Math_random;
  let star := set_style "animationDelay" (Seconds (mul r (num 5))) star in
  r ← Math_random;
  let star := set_style "animationDuration" (Seconds (add (mul r (num 5)) (num 5))) star in
  mret star.

Definition animate_stars : JS unit :=
  starBackground ← read (λ w, getElementById (document w) "star-background");
  match starBackground with
  | Some starBackground =>
      for_from 0 numberOfStars (λ i,
        star ← make_star;
        modify (with_document (append_child (Elem star []) starBackground)))
  | None => mret ()
  end.

(** The [DOMContentLoaded] handler. *)
Definition main : JS unit :=
  animate_stars ;;
  setupDropZone "file-drop-zone" "file-input" ;;
  setupDropZone "video-drop-zone" "video-input" ;;
  setupDropZone "anime-drop-zone" "anime-input".


(** ** Notions used in the statements *)

Definition style_at (d : Node) (p : Path) : option (gmap string CssValue) :=
  el_style <$> el_at d p.

(** Two documents that agree on every element's style and on which
    element each id names. *)
Definition same_styles_ids (d d' : Node) : Prop :=
  (∀ p, style_at d' p = style_at d p)
  ∧ (∀ id, getElementById d' id = getElementById d id).

(** What one run of [togglePassword] does to the document when the input
    and the icon are found. *)
Definition toggle_doc (input icon : Path) (d : Node) : Node :=
  if bool_decide (default None (el_type <$> el_at d input) = Some "password") then
    update_el (λ e, set_classList (token_add "fa-eye-slash" (el_classList e)) e) icon
      (update_el (λ e, set_classList (token_remove "fa-eye" (el_classList e)) e) icon
         (update_el (set_type "text") input d))
  else
    update_el (λ e, set_classList (token_add "fa-eye" (el_classList e)) e) icon
      (update_el (λ e, set_classList (token_remove "fa-eye-slash" (el_classList e)) e) icon
         (update_el (set_type "password") input d)).

(** The input's mode and the icon's glyph class agree: masked with the
    plain eye, or plain with the slashed eye. *)
Definition in_lockstep (input icon : Element) : Prop :=
  (el_type input = Some "password"
   ∧ "fa-eye" ∈ el_classList icon ∧ "fa-eye-slash" ∉ el_classList icon)
  ∨ (el_type input = Some "text"
     ∧ "fa-eye-slash" ∈ el_classList icon ∧ "fa-eye" ∉ el_classList icon).

(** Equality of class lists as sets of tokens. *)
Definition same_tokens (a b : list string) : Prop := ∀ t, t ∈ a ↔ t ∈ b.

(** The run of a computation, whichever way it completes. *)
Definition run (m : JS unit) (w : World) : World := world_of (m w).

(** [setupDropZone zoneId inputId] finds something missing: the zone, the
    input, or a non-empty [data-upload-url] on the input. *)
Definition misconfigured (d : Node) (zoneId inputId : string) : Prop :=
  getElementById d zoneId = None
  ∨ getElementById d inputId = None
  ∨ ∃ fileInput e,
      getElementById d inputId = Some fileInput
      ∧ el_at d fileInput = Some e
      ∧ (el_dataset e !! "uploadUrl" = None ∨ el_dataset e !! "uploadUrl" = Some "").

(** The promise [fetch(...).then(response => response.json())]. *)
Definition json_promise (o : FetchOutcome) : Settled Json :=
  match fetch_result o with
  | Fulfilled r => response_json r
  | Rejected e => Rejected e
  end.

Definition rejects {A} (p : Settled A) : Prop := ∃ e, p = Rejected e.

Definition is_alert (e : Effect) : bool :=
  match e with EAlert _ => true | _ => false end.
Definition is_reload (e : Effect) : bool :=
  match e with EReload => true | _ => false end.
Definition is_fetch (e : Effect) : bool :=
  match e with EFetch _ _ _ => true | _ => false end.

(** A call of one of the two modal operations. *)
Inductive ModalOp :=
  | Open (videoSrc : option string)
  | Close.

Definition run_modal_op (modalId : string) (op : ModalOp) : JS unit :=
  match op with
  | Open videoSrc => openModal modalId videoSrc
  | Close => closeModal modalId
  end.

(** The calls made one after the other, each from its own event; an
    exception ends only the call that raised it. *)
Fixpoint run_modal_ops (modalId : string) (ops : list ModalOp) (w : World) : World :=
  match ops with
  | [] => w
  | op :: ops' => run_modal_ops modalId ops' (run (run_modal_op modalId op) w)
  end.

Definition display_after (op : ModalOp) : CssValue :=
  match op with
  | Open _ => Keyword "block"
  | Close => Keyword "none"
  end.

(** The second world has everything the script can see in the first: the
    same element behind every id, every element of the first unchanged,
    and the same listeners, effects and pending requests. *)
Definition extends (w1 w2 : World) : Prop :=
  (∀ id, getElementById (document w2) id = getElementById (document w1) id)
  ∧ (∀ q e, el_at (document w1) q = Some e → el_at (document w2) q = Some e)
  ∧ listeners w2 = listeners w1
  ∧ effects w2 = effects w1
  ∧ pending w2 = pending w1.

(** ** A sample page *)

Definition el (tag id : string) (cls : list string) : Element :=
  mkElement tag id cls ∅ None "" true ∅ [].

Definition input_el (id type : string) (data : gmap string string) : Element :=
  mkElement "input" id [] ∅ (Some type) "" true data [].

(** One half: the largest value below it is [0.5 - 2^-54]. *)
Definition half : number := S754_finite false (2 ^ 52) (-53).

(** The largest binary64 value below one, [1 - 2^-53]. *)
Definition below_one : number := S754_finite false (2 ^ 53 - 1) (-53).

Definition sample_page : Node :=
  Elem (el "body" "" [])
    [ Elem (el "div" "star-background" []) [];
      Elem (el "div" "loginModal" ["modal"])
        [ Elem (el "div" "" ["modal-content"])
            [ Elem (input_el "password" "password" ∅) [];
              Elem (el "button" "" ["toggle"])
                [ Elem (el "i" "" ["fas"; "fa-eye"]) [] ] ] ];
      Elem (el "div" "videoPlayerModal" ["modal"])
        [ Elem (el "video" "videoPlayer" []) [] ];
      Elem (el "div" "file-drop-zone" ["drop-zone"])
        [ Elem (input_el "file-input" "file" {[ "uploadUrl" := "/upload" ]}) [] ];
      Elem (el "div" "video-drop-zone" ["drop-zone"])
        [ Elem (input_el "video-input" "file" ∅) [] ] ].

Definition sample_world : World :=
  mkWorld sample_page [] [] [] (λ _, half) 0.

Definition fileA : File := mkFile "a.txt" 10.
Definition fileB : File := mkFile "b.txt" 20.

(** A page whose toggle icon shows the slashed eye while the field is
    masked. *)
Definition slashed_page : Node :=
  Elem (el "form" "" [])
    [ Elem (input_el "password" "password" ∅) [];
      Elem (el "button" "" ["toggle"])
        [ Elem (el "i" "" ["fas"; "fa-eye-slash"]) [] ] ].

Definition slashed_world : World :=
  mkWorld slashed_page [] [] [] (λ _, half) 0.

(** A page load on which [Math.random()] keeps returning the largest value
    it may return. *)
Definition edge_world : World :=
  mkWorld sample_page [] [] [] (λ _, below_one) 0.

(** A page whose dialog backdrop carries the [modal] class but no id. *)
Definition anonymous_modal_page : Node :=
  Elem (el "body" "" [])
    [ Elem (el "div" "" ["modal"])
        [ Elem (el "div" "" ["modal-content"]) [] ] ].

Definition anonymous_modal_world : World :=
  mkWorld anonymous_modal_page [] [] [] (λ _, half) 0.

(** A page on which two dialogs share one id. *)
Definition twin_modal_page : Node :=
  Elem (el "body" "" [])
    [ Elem (el "div" "dialog" ["modal"]) [];
      Elem (el "div" "dialog" ["modal"]) [] ].

Definition twin_modal_world : World :=
  mkWorld twin_modal_page [] [] [] (λ _, half) 0.

Definition sample_configured : World :=
  run (setupDropZone "file-drop-zone" "file-input") sample_world.

(** The sample page after the user has picked a file in the dialog. *)
Definition chosen_world : World :=
  with_document (update_el (set_files [fileA]) [3; 0]) sample_world.

Definition chosen_input : Element :=
  set_files [fileA] (input_el "file-input" "file" {[ "uploadUrl" := "/upload" ]}).

(** ** Exact values of binary64 numbers *)

(** [m * 2^e] as a rational. *)
Definition dyadic (m e : Z) : Q :=
  if (0 <=? e)%Z then inject_Z (m * 2 ^ e)
  else Qmake m (2 ^ Z.to_pos (- e))%positive.

Definition value (x : number) : Q :=
  match x with
  | S754_finite s m e => dyadic (if s then Z.neg m else Z.pos m) e
  | _ => 0%Q
  end.

Definition is_finite (x : number) : bool :=
  match x with
  | S754_zero _ | S754_finite _ _ _ => true
  | _ => false
  end.

(** What [Math.random()] may return: a binary64 value with positive sign,
    at least zero and less than one. *)
Definition is_random_value (x : number) : bool :=
  match x with
  | S754_zero false => true
  | S754_finite false m e => bounded prec emax m e && SFltb x (num 1)
  | _ => false
  end.

(** [lo <= x < hi], or [lo <= x <= hi] when [closed]. *)
Definition in_range (lo hi : Z) (closed : bool) (x : number) : Prop :=
  is_finite x = true
  ∧ (inject_Z lo <= value x)%Q
  ∧ (if closed then (value x <= inject_Z hi)%Q else (value x < inject_Z hi)%Q).

(** The decorative node the background loop builds, with the interval
    each random attribute lies in; [closed] says whether the duration may
    reach its upper end. *)
Definition star_node (closed : bool) (n : Node) : Prop :=
  ∃ top left size delay duration,
    node_children n = []
    ∧ el_tag (node_el n) = "div"
    ∧ el_classList (node_el n) = ["star"]
    ∧ el_style (node_el n) !! "top" = Some (Percent top)
    ∧ el_style (node_el n) !! "left" = Some (Percent left)
    ∧ el_style (node_el n) !! "width" = Some (Px size)
    ∧ el_style (node_el n) !! "height" = Some (Px size)
    ∧ el_style (node_el n) !! "animationDelay" = Some (Seconds delay)
    ∧ el_style (node_el n) !! "animationDuration" = Some (Seconds duration)
    ∧ in_range 0 100 false top
    ∧ in_range 0 100 false left
    ∧ in_range 0 3 false size
    ∧ in_range 0 5 false delay
    ∧ in_range 5 10 closed duration.
(** * Properties *)

(** ** The document tree *)

Section TreeLemmas.
Implicit Types (d n : Node) (p q : Path) (g : Element → Element).

Lemma el_at_update_el g p d q :
  el_at (update_el g p d) q
  = if decide (p = q) then g <$> el_at d q else el_at d q.
Proof.
  unfold el_at, update_el.
  revert d q. induction p as [|i p IH]; intros [e cs] [|j q]; simpl.
  - done.
  - done.
  - done.
  - destruct (decide (i = j)) as [->|Hij].
    + rewrite list_lookup_alter_eq.
      destruct (cs !! j) as [c|] eqn:Hc; simpl.
      * rewrite IH.
        repeat case_decide; congruence.
      * by case_decide.
    + rewrite list_lookup_alter_ne by done.
      case_decide; [congruence|done].
Qed.

Lemma el_at_update_el_eq g p d e :
  el_at d p = Some e → el_at (update_el g p d) p = Some (g e).
Proof. intros H. rewrite el_at_update_el, decide_True, H; done. Qed.

Lemma el_at_update_el_ne g p d q :
  p ≠ q → el_at (update_el g p d) q = el_at d q.
Proof. intros H. rewrite el_at_update_el, decide_False; done. Qed.

Lemma first_in_ext {A} (s1 s2 : A → option Path) (cs1 cs2 : list A) k :
  Forall2 (λ c1 c2, s1 c1 = s2 c2) cs1 cs2 →
  first_in s1 cs1 k = first_in s2 cs2 k.
Proof.
  intros H. revert k. induction H as [|c1 c2 cs1 cs2 Hc _ IH]; intros k; simpl.
  - done.
  - rewrite Hc. destruct (s2 c2); [done|apply IH].
Qed.

Lemma first_in_alter {A} (s : A → option Path) (F : A → A) i cs k :
  (∀ c, s (F c) = s c) →
  first_in s (alter F i cs) k = first_in s cs k.
Proof.
  intros HF. apply first_in_ext.
  assert (Hrefl : ∀ l : list A, Forall2 (λ c1 c2, s c1 = s c2) l l)
    by (induction l; constructor; auto).
  revert i. induction cs as [|c cs IH]; intros [|i]; simpl.
  - constructor.
  - constructor.
  - constructor; [apply HF|apply Hrefl].
  - constructor; [done|apply IH].
Qed.

Lemma find_node_update_el (P : Element → bool) g p d :
  (∀ e, P (g e) = P e) →
  find_node P (update_el g p d) = find_node P d.
Proof.
  intros HP. unfold update_el. revert d.
  induction p as [|i p IH]; intros [e cs]; simpl.
  - by rewrite HP.
  - destruct (P e); [done|]. by apply first_in_alter.
Qed.

Lemma getElementById_update_el g p d id :
  (∀ e, el_id (g e) = el_id e) →
  getElementById (update_el g p d) id = getElementById d id.
Proof.
  intros Hg. unfold getElementById. case_bool_decide; [done|].
  apply find_node_update_el. intros e. unfold has_id. by rewrite Hg.
Qed.
End TreeLemmas.

Section TreeSearch.
Implicit Types (d n : Node) (p q : Path) (g : Element → Element).

Lemma Node_ind (P : Node → Prop) :
  (∀ e cs, Forall P cs → P (Elem e cs)) → ∀ n, P n.
Proof.
  intros H. fix IH 1. intros [e cs]. apply H.
  induction cs as [|c cs IHcs]; constructor; [apply IH|exact IHcs].
Qed.

Lemma first_in_Some {A} (s : A → option Path) cs k p :
  first_in s cs k = Some p →
  ∃ j c p', p = (k + j) :: p' ∧ cs !! j = Some c ∧ s c = Some p'.
Proof.
  revert k. induction cs as [|c cs IH]; intros k; simpl; [done|].
  destruct (s c) as [p'|] eqn:Hc.
  - intros [= <-]. exists 0, c, p'. by rewrite Nat.add_0_r.
  - intros (j & c' & p' & -> & Hj & Hs)%IH.
    exists (S j), c', p'. split_and!; [f_equal; lia|done|done].
Qed.

Lemma find_node_Some (P : Element → bool) n p :
  find_node P n = Some p → ∃ e, el_at n p = Some e ∧ P e = true.
Proof.
  revert p. induction n as [e cs IH] using Node_ind. intros p. simpl.
  destruct (P e) eqn:HP.
  - intros [= <-]. by exists e.
  - intros (j & c & p' & -> & Hj & Hs)%first_in_Some.
    rewrite Forall_lookup in IH. destruct (IH _ _ Hj _ Hs) as (e' & He' & HPe').
    exists e'. split; [|done]. unfold el_at in *. simpl. by rewrite Hj.
Qed.

Lemma getElementById_Some d id p :
  getElementById d id = Some p →
  ∃ e, el_at d p = Some e ∧ el_id e = id ∧ id ≠ "".
Proof.
  unfold getElementById. case_bool_decide; [done|].
  intros (e & He & Hid)%find_node_Some. exists e.
  unfold has_id in Hid. by apply bool_decide_eq_true in Hid.
Qed.

Lemma previousElementSibling_deeper n i i' p :
  previousElementSibling n (i :: i' :: p)
  = match node_children n !! i with
    | Some c => cons i <$> previousElementSibling c (i' :: p)
    | None => None
    end.
Proof. done. Qed.

Lemma previousElementSibling_update_el g q d p :
  previousElementSibling (update_el g q d) p = previousElementSibling d p.
Proof.
  unfold update_el. revert q d. induction p as [|i p IH]; intros q [e cs]; [done|].
  destruct q as [|k q]; [done|].
  cbn [alter_at node_children node_el].
  destruct p as [|i' p].
  - simpl. destruct i as [|i]; [done|].
    destruct (decide (k = S i)) as [->|Hki].
    + rewrite list_lookup_alter_eq. by destruct (cs !! S i).
    + by rewrite list_lookup_alter_ne.
  - rewrite !previousElementSibling_deeper. cbn [node_children].
    destruct (decide (k = i)) as [->|Hki].
    + rewrite list_lookup_alter_eq.
      destruct (cs !! i) as [c|]; [|done].
      cbn [fmap option_fmap option_map]. by rewrite IH.
    + by rewrite list_lookup_alter_ne.
Qed.

Lemma previousElementSibling_length d p q :
  previousElementSibling d p = Some q → length q = length p.
Proof.
  revert d q. induction p as [|i p IH]; intros [e cs] q; [done|].
  destruct p as [|i' p].
  - simpl. destruct i as [|i]; [done|].
    destruct (cs !! S i); [|done]. by intros [= <-].
  - rewrite previousElementSibling_deeper. cbn [node_children].
    destruct (cs !! i) as [c|]; [|done].
    destruct (previousElementSibling c (i' :: p)) as [q'|] eqn:Hq; [|done].
    intros [= <-]. cbn [length]. f_equal. by apply (IH c).
Qed.

Lemma querySelector_query_in d p tag :
  querySelector d p tag = (λ q, (p ++ q)%list) <$> query_in d p tag.
Proof. unfold querySelector, query_in. by destruct (node_at d p). Qed.

Lemma query_in_update_el g q d p tag :
  (∀ e, el_tag (g e) = el_tag e) →
  query_in (update_el g q d) p tag = query_in d p tag.
Proof.
  intros Hg. unfold query_in.
  assert (HP : ∀ e, has_tag tag (g e) = has_tag tag e)
    by (intros e0; unfold has_tag; by rewrite Hg).
  revert q d. induction p as [|i p IH]; intros q [e cs].
  - destruct q as [|k q]; [done|]. unfold update_el. simpl.
    apply first_in_alter. intros c. by apply find_node_update_el.
  - destruct q as [|k q]; [done|]. unfold update_el.
    cbn [alter_at node_at node_children node_el].
    destruct (decide (k = i)) as [->|Hki].
    + rewrite list_lookup_alter_eq.
      destruct (cs !! i) as [c|]; simpl; [apply IH|done].
    + by rewrite list_lookup_alter_ne.
Qed.

Lemma querySelector_update_el g q d p tag :
  (∀ e, el_tag (g e) = el_tag e) →
  querySelector (update_el g q d) p tag = querySelector d p tag.
Proof. intros Hg. by rewrite !querySelector_query_in, query_in_update_el. Qed.

Lemma querySelector_length d p tag q :
  querySelector d p tag = Some q → length p < length q.
Proof.
  rewrite querySelector_query_in. unfold query_in.
  destruct (node_at d p) as [n|]; [|done]. simpl.
  destruct (first_in _ _ _) as [r|] eqn:Hr; [|done].
  apply first_in_Some in Hr as (j & c & p' & -> & _).
  intros [= <-]. rewrite length_app. simpl. lia.
Qed.

(** The previous sibling of an element is never inside that element. *)
Lemma sibling_not_descendant d p tag input icon :
  previousElementSibling d p = Some input →
  querySelector d p tag = Some icon →
  input ≠ icon.
Proof.
  intros H1%previousElementSibling_length H2%querySelector_length ->. lia.
Qed.
End TreeSearch.

(** ** Reading properties after assignments *)

Section Frames.
Context {A : Type} (f : Element → A).
Implicit Types (d : Node) (p q : Path) (g : Element → Element).

Lemma prop_update_el_preserved g q d p :
  (∀ e, f (g e) = f e) →
  f <$> el_at (update_el g q d) p = f <$> el_at d p.
Proof.
  intros Hg. rewrite el_at_update_el. case_decide; [|done].
  destruct (el_at d p) as [e|]; simpl; [by rewrite Hg|done].
Qed.

Lemma prop_update_el_eq g d p :
  f <$> el_at (update_el g p d) p = (λ e, f (g e)) <$> el_at d p.
Proof.
  rewrite el_at_update_el, decide_True by done. by destruct (el_at d p).
Qed.

Lemma prop_update_el_ne g q d p :
  q ≠ p → f <$> el_at (update_el g q d) p = f <$> el_at d p.
Proof. intros H. by rewrite el_at_update_el_ne. Qed.
End Frames.

Ltac js_unfold :=
  unfold run, classList_add, classList_remove, classList_contains,
    addEventListener, fetch, deref in *;
  unfold set_prop, get_prop, emit in *;
  unfold read, modify, throw in *;
  unfold mbind, mret, JS_bind, JS_ret in *;
  cbn beta iota in *.

(** ** Modal handling *)

Section Modal.
Implicit Types (w : World) (d : Node) (p q : Path).

Lemma same_styles_ids_refl d : same_styles_ids d d.
Proof. done. Qed.

Lemma same_styles_ids_update g q d d' :
  (∀ e, el_style (g e) = el_style e) →
  (∀ e, el_id (g e) = el_id e) →
  same_styles_ids d d' →
  same_styles_ids d (update_el g q d').
Proof.
  intros Hs Hi [H1 H2]. split.
  - intros p. unfold style_at. rewrite prop_update_el_preserved by done. apply H1.
  - intros id. rewrite getElementById_update_el by done. apply H2.
Qed.

Lemma play_doc p w d :
  same_styles_ids d (document w) →
  same_styles_ids d (document (world_of (play p w))).
Proof.
  intros H. unfold play. js_unfold.
  match goal with |- context [default false ?x] => destruct (default false x) end;
    simpl; [|done].
  by apply same_styles_ids_update.
Qed.

Lemma pause_doc p w d :
  same_styles_ids d (document w) →
  same_styles_ids d (document (world_of (pause p w))).
Proof.
  intros H. unfold pause. js_unfold.
  match goal with |- context [default false ?x] => destruct (default false x) end;
    simpl; [|done].
  by apply same_styles_ids_update.
Qed.

Lemma openModal_absent w modalId videoSrc :
  getElementById (document w) modalId = None →
  openModal modalId videoSrc w = Normal () w.
Proof. intros H. unfold openModal. js_unfold. by rewrite H. Qed.

Lemma closeModal_absent w modalId :
  getElementById (document w) modalId = None →
  closeModal modalId w = Normal () w.
Proof. intros H. unfold closeModal. js_unfold. by rewrite H. Qed.

Lemma openModal_doc w modalId videoSrc modal :
  getElementById (document w) modalId = Some modal →
  same_styles_ids
    (update_el (set_style "display" (Keyword "block")) modal (document w))
    (document (world_of (openModal modalId videoSrc w))).
Proof.
  intros H. unfold openModal. js_unfold. rewrite H.
  destruct (_ && _); [|done]. cbn beta.
  destruct (getElementById _ "videoPlayer") as [v|]; [|done].
  apply play_doc. simpl. by apply same_styles_ids_update.
Qed.

Lemma closeModal_doc w modalId modal :
  getElementById (document w) modalId = Some modal →
  same_styles_ids
    (update_el (set_style "display" (Keyword "none")) modal (document w))
    (document (world_of (closeModal modalId w))).
Proof.
  intros H. unfold closeModal. js_unfold. rewrite H.
  destruct (bool_decide _); [|done]. cbn beta.
  destruct (getElementById _ "videoPlayer") as [v|]; [|done].
  match goal with |- context [pause v ?w0] =>
    pose proof (pause_doc v w0 _ (same_styles_ids_refl _)) as Hp;
    destruct (pause v w0) as [[] w1|err w1] end; simpl in *.
  - by apply same_styles_ids_update.
  - done.
Qed.

Lemma openModal_without_source w modalId :
  ∃ w1, openModal modalId None w = Normal () w1.
Proof.
  unfold openModal. js_unfold.
  destruct (getElementById _ modalId); [|by eexists].
  rewrite andb_false_r. by eexists.
Qed.

Lemma style_at_set_display v d p e :
  el_at d p = Some e →
  ∃ s, style_at (update_el (set_style "display" v) p d) p = Some s
       ∧ s !! "display" = Some v.
Proof.
  intros He. exists (<["display":=v]> (el_style e)). split.
  - unfold style_at. by rewrite (el_at_update_el_eq _ _ _ e).
  - apply lookup_insert_eq.
Qed.

(** C4: opening and then closing a modal leaves it hidden; both
    operations are no-ops that complete normally on an identifier that
    names no element. *)
Theorem openModal_closeModal_hidden w modalId :
  match getElementById (document w) modalId with
  | Some modal =>
      (∃ w1, openModal modalId None w = Normal () w1)
      ∧ ∀ videoSrc,
          let w1 := world_of (openModal modalId videoSrc w) in
          let w2 := world_of (closeModal modalId w1) in
          (∃ s, style_at (document w1) modal = Some s
                ∧ s !! "display" = Some (Keyword "block"))
          ∧ (∃ s, style_at (document w2) modal = Some s
                  ∧ s !! "display" = Some (Keyword "none"))
  | None =>
      (∀ videoSrc, openModal modalId videoSrc w = Normal () w)
      ∧ closeModal modalId w = Normal () w
  end.
Proof.
  destruct (getElementById (document w) modalId) as [modal|] eqn:Hm.
  - split; [apply openModal_without_source|]. intros videoSrc w1 w2.
    destruct (getElementById_Some _ _ _ Hm) as (e & He & _).
    destruct (openModal_doc w modalId videoSrc modal Hm) as [Hs1 Hi1].
    fold w1 in Hs1, Hi1.
    assert (Hm1 : getElementById (document w1) modalId = Some modal).
    { rewrite Hi1, getElementById_update_el; done. }
    destruct (closeModal_doc w1 modalId modal Hm1) as [Hs2 _]. fold w2 in Hs2.
    split.
    + rewrite Hs1. by eapply style_at_set_display.
    + rewrite Hs2.
      destruct (getElementById_Some _ _ _ Hm1) as (e1 & He1 & _).
      by eapply style_at_set_display.
  - split; [intros videoSrc; by apply openModal_absent|by apply closeModal_absent].
Qed.

(** C8 (amended): a click whose target carries the [modal] class closes
    the element that [getElementById] returns for the target's id, which
    is the target itself whenever that lookup finds the target, and
    changes no other element's style; when the id names no element (an
    empty id in particular) nothing is closed, and a click on a target
    without the class changes nothing. *)
Theorem backdrop_click_closes_named_modal w target et :
  el_at (document w) target = Some et →
  let w' := world_of (window_onclick target w) in
  if token_contains "modal" (el_classList et) then
    match getElementById (document w) (el_id et) with
    | Some modal =>
        (∃ s, style_at (document w') modal = Some s
              ∧ s !! "display" = Some (Keyword "none"))
        ∧ (∀ q, q ≠ modal → style_at (document w') q = style_at (document w) q)
    | None => window_onclick target w = Normal () w
    end
  else window_onclick target w = Normal () w.
Proof.
  intros He w'. subst w'. unfold window_onclick. js_unfold. rewrite He. simpl.
  destruct (token_contains "modal" (el_classList et)); [|done].
  rewrite He. cbn [fmap option_fmap option_map default].
  destruct (getElementById (document w) (el_id et)) as [modal|] eqn:Hm.
  - destruct (closeModal_doc w _ _ Hm) as [Hs _]. split.
    + rewrite Hs. destruct (getElementById_Some _ _ _ Hm) as (e & Hel & _).
      by eapply style_at_set_display.
    + intros q Hq. rewrite Hs. unfold style_at. apply prop_update_el_ne. congruence.
  - by apply closeModal_absent.
Qed.

(** C5: opening the video-player modal with a source sets the video
    element's source and starts playback; closing it pauses playback and
    clears the source. *)
Theorem video_modal_controls_playback w src modal video ev :
  src ≠ "" →
  getElementById (document w) "videoPlayerModal" = Some modal →
  getElementById (document w) "videoPlayer" = Some video →
  el_at (document w) video = Some ev →
  is_media ev = true →
  (∃ w1 ev1,
      openModal "videoPlayerModal" (Some src) w = Normal () w1
      ∧ el_at (document w1) video = Some ev1
      ∧ el_src ev1 = src ∧ el_paused ev1 = false
      ∧ effects w1 = (effects w ++ [EPlay video])%list)
  ∧ (∃ w2 ev2,
      closeModal "videoPlayerModal" w = Normal () w2
      ∧ el_at (document w2) video = Some ev2
      ∧ el_src ev2 = "" ∧ el_paused ev2 = true
      ∧ effects w2 = (effects w ++ [EPause video])%list).
Proof.
  intros Hsrc Hm Hv He Hmedia. split.
  - unfold openModal, play. js_unfold. rewrite Hm.
    rewrite bool_decide_true by done. unfold truthy.
    rewrite bool_decide_false by done. cbn [negb andb with_document document default].
    rewrite getElementById_update_el, Hv by done.
    cbn [with_document document].
    rewrite !(prop_update_el_preserved is_media) by done.
    rewrite He. cbn [fmap option_fmap option_map default]. rewrite Hmedia.
    assert (∃ e0, el_at (update_el (set_style "display" (Keyword "block")) modal
                                   (document w)) video = Some e0)
      as [e0 He0] by (rewrite el_at_update_el; case_decide; rewrite He; eauto).
    eexists _, (_ (_ e0)). split; [done|].
    cbn [with_document with_effects document effects].
    split; [apply el_at_update_el_eq; by apply el_at_update_el_eq|done].
  - unfold closeModal, pause. js_unfold. rewrite Hm.
    rewrite bool_decide_true by done. cbn [with_document document].
    rewrite getElementById_update_el, Hv by done.
    cbn [with_document document].
    rewrite !(prop_update_el_preserved is_media) by done.
    rewrite He. cbn [fmap option_fmap option_map default]. rewrite Hmedia.
    assert (∃ e0, el_at (update_el (set_style "display" (Keyword "none")) modal
                                   (document w)) video = Some e0)
      as [e0 He0] by (rewrite el_at_update_el; case_decide; rewrite He; eauto).
    eexists _, (_ (_ e0)). split; [done|].
    cbn [with_document with_effects document effects].
    split; [apply el_at_update_el_eq; by apply el_at_update_el_eq|done].
Qed.

Lemma backdrop_click_closes_named_modal_witness :
  (∃ s, style_at (document (world_of (window_onclick [1] sample_world))) [1] = Some s
        ∧ s !! "display" = Some (Keyword "none"))
  ∧ (∀ q, q ≠ [1] →
          style_at (document (world_of (window_onclick [1] sample_world))) q
          = style_at (document sample_world) q).
Proof.
  apply (backdrop_click_closes_named_modal sample_world [1]
           (el "div" "loginModal" ["modal"])).
  reflexivity.
Defined.

(** C8 as stated fails: a click on a backdrop that carries the [modal]
    class but has no id closes nothing, because [getElementById("")]
    finds no element. *)
Lemma backdrop_click_without_id_closes_nothing :
  (token_contains "modal" <$> (el_classList <$> el_at (document anonymous_modal_world) [0]))
  = Some true
  ∧ window_onclick [0] anonymous_modal_world = Normal () anonymous_modal_world
  ∧ ¬ ∃ s, style_at (document (world_of (window_onclick [0] anonymous_modal_world))) [0]
           = Some s
           ∧ s !! "display" = Some (Keyword "none").
Proof.
  split; [reflexivity|]. split; [reflexivity|].
  intros (s & Hs & Hd). vm_compute in Hs. injection Hs as <-.
  vm_compute in Hd. discriminate.
Qed.

(** With a duplicated id the click on the second dialog hides the first
    one and leaves the clicked dialog as it was. *)
Example backdrop_click_with_shared_id_closes_first :
  let w' := world_of (window_onclick [1] twin_modal_world) in
  style_at (document w') [0] = Some {[ "display" := Keyword "none" ]}
  ∧ style_at (document w') [1] = Some ∅.
Proof. split; vm_compute; reflexivity. Qed.

Lemma video_modal_controls_playback_witness :
  (∃ w1 ev1,
      openModal "videoPlayerModal" (Some "/media/intro.mp4") sample_world = Normal () w1
      ∧ el_at (document w1) [2; 0] = Some ev1
      ∧ el_src ev1 = "/media/intro.mp4" ∧ el_paused ev1 = false
      ∧ effects w1 = (effects sample_world ++ [EPlay [2; 0]])%list)
  ∧ (∃ w2 ev2,
      closeModal "videoPlayerModal" sample_world = Normal () w2
      ∧ el_at (document w2) [2; 0] = Some ev2
      ∧ el_src ev2 = "" ∧ el_paused ev2 = true
      ∧ effects w2 = (effects sample_world ++ [EPause [2; 0]])%list).
Proof.
  apply (video_modal_controls_playback sample_world "/media/intro.mp4" [2] [2; 0]
           (el "video" "videoPlayer" [])).
  - discriminate.
  - reflexivity.
  - reflexivity.
  - reflexivity.
  - reflexivity.
Defined.

Example modal_round_trip :
  style_at (document (run (closeModal "loginModal")
                        (run (openModal "loginModal" None) sample_world))) [1]
  = Some {[ "display" := Keyword "none" ]}.
Proof. vm_compute. reflexivity. Qed.

Example click_inside_dialog_closes_nothing :
  window_onclick [1; 0] sample_world = Normal () sample_world.
Proof. reflexivity. Qed.
End Modal.



(** ** Password visibility toggle *)

Section Toggle.
Implicit Types (w : World) (d : Node) (p q : Path).

Lemma togglePassword_ok w button input icon :
  previousElementSibling (document w) button = Some input →
  querySelector (document w) button "i" = Some icon →
  togglePassword button w
  = Normal () (with_document (toggle_doc input icon) w).
Proof.
  intros Hin Hic. unfold togglePassword, toggle_doc. js_unfold.
  rewrite Hin, Hic. unfold with_document. cbn [document listeners pending effects random_source random_used].
  by case_bool_decide.
Qed.

Lemma toggle_doc_sibling input icon d p :
  previousElementSibling (toggle_doc input icon d) p = previousElementSibling d p.
Proof.
  unfold toggle_doc. case_bool_decide;
    by rewrite !previousElementSibling_update_el.
Qed.

Lemma toggle_doc_query input icon d p tag :
  querySelector (toggle_doc input icon d) p tag = querySelector d p tag.
Proof.
  unfold toggle_doc. case_bool_decide;
    by rewrite !querySelector_update_el.
Qed.

Lemma elem_of_token_add t a l : t ∈ token_add a l ↔ t = a ∨ t ∈ l.
Proof.
  unfold token_add, token_contains. case_bool_decide as Ha.
  - split; [by right|]. by intros [->|].
  - rewrite elem_of_app, list_elem_of_singleton. tauto.
Qed.

Lemma elem_of_token_remove t r l : t ∈ token_remove r l ↔ t ≠ r ∧ t ∈ l.
Proof. unfold token_remove. by rewrite list_elem_of_filter. Qed.

Lemma toggle_doc_el_at input icon d ein eic :
  input ≠ icon →
  el_at d input = Some ein →
  el_at d icon = Some eic →
  let masked := bool_decide (el_type ein = Some "password") in
  el_at (toggle_doc input icon d) input
  = Some (set_type (if masked then "text" else "password") ein)
  ∧ el_at (toggle_doc input icon d) icon
    = Some (set_classList
              (token_add (if masked then "fa-eye-slash" else "fa-eye")
                 (token_remove (if masked then "fa-eye" else "fa-eye-slash")
                    (el_classList eic))) eic).
Proof.
  intros Hne Hin Hic masked. subst masked. unfold toggle_doc. rewrite Hin.
  change (default None (el_type <$> Some ein)) with (el_type ein).
  destruct (bool_decide (el_type ein = Some "password")).
  all: split;
    [ rewrite !el_at_update_el_ne by done;
      rewrite el_at_update_el, decide_True by done; by rewrite Hin
    | do 2 rewrite el_at_update_el, decide_True by done;
      rewrite el_at_update_el_ne by done; by rewrite Hic ].
Qed.

Lemma token_swap_back a b l :
  a ≠ b → a ∈ l → b ∉ l →
  same_tokens (token_add a (token_remove b (token_add b (token_remove a l)))) l.
Proof.
  intros Hab Ha Hb t.
  rewrite elem_of_token_add, elem_of_token_remove, elem_of_token_add,
    elem_of_token_remove.
  destruct (decide (t = a)) as [->|]; [tauto|].
  destruct (decide (t = b)) as [->|]; tauto.
Qed.

(** C6 (amended): when the input's mode and the icon class are in
    lockstep, two successive calls restore the input type and the icon's
    class set, and the call in between has changed the type. *)
Theorem togglePassword_twice_restores w button input icon ein eic :
  previousElementSibling (document w) button = Some input →
  querySelector (document w) button "i" = Some icon →
  el_at (document w) input = Some ein →
  el_at (document w) icon = Some eic →
  in_lockstep ein eic →
  ∃ w1 w2 ein1 ein2 eic2,
    togglePassword button w = Normal () w1
    ∧ togglePassword button w1 = Normal () w2
    ∧ el_at (document w1) input = Some ein1 ∧ el_type ein1 ≠ el_type ein
    ∧ el_at (document w2) input = Some ein2 ∧ el_type ein2 = el_type ein
    ∧ el_at (document w2) icon = Some eic2
    ∧ same_tokens (el_classList eic2) (el_classList eic).
Proof.
  intros Hs Hq Hin Hic Hlock.
  pose proof (sibling_not_descendant _ _ _ _ _ Hs Hq) as Hne.
  destruct (toggle_doc_el_at input icon _ _ _ Hne Hin Hic) as [Hin1 Hic1].
  destruct (toggle_doc_el_at input icon _ _ _ Hne Hin1 Hic1) as [Hin2 Hic2].
  cbn [el_type set_type el_classList set_classList] in Hin2, Hic2.
  exists (with_document (toggle_doc input icon) w),
    (with_document (toggle_doc input icon) (with_document (toggle_doc input icon) w)).
  destruct Hlock as [(Ht & Hy & Hn)|(Ht & Hy & Hn)];
    rewrite Ht in Hin1, Hic1, Hin2, Hic2.
  - rewrite (bool_decide_true (Some "password" = Some "password")) in * by done.
    rewrite (bool_decide_false (Some "text" = Some "password")) in * by done.
    eexists _, _, _. split_and!; [..|exact Hin1| |exact Hin2| |exact Hic2|].
    + by apply togglePassword_ok.
    + apply togglePassword_ok; cbn [with_document document];
        by rewrite ?toggle_doc_sibling, ?toggle_doc_query.
    + cbn [el_type set_type]. by rewrite Ht.
    + cbn [el_type set_type]. by rewrite Ht.
    + by apply token_swap_back.
  - rewrite (bool_decide_false (Some "text" = Some "password")) in * by done.
    rewrite (bool_decide_true (Some "password" = Some "password")) in * by done.
    eexists _, _, _. split_and!; [..|exact Hin1| |exact Hin2| |exact Hic2|].
    + by apply togglePassword_ok.
    + apply togglePassword_ok; cbn [with_document document];
        by rewrite ?toggle_doc_sibling, ?toggle_doc_query.
    + cbn [el_type set_type]. by rewrite Ht.
    + cbn [el_type set_type]. by rewrite Ht.
    + by apply token_swap_back.
Qed.

Lemma togglePassword_twice_restores_witness :
  ∃ w1 w2 ein1 ein2 eic2,
    togglePassword [1; 0; 1] sample_world = Normal () w1
    ∧ togglePassword [1; 0; 1] w1 = Normal () w2
    ∧ el_at (document w1) [1; 0; 0] = Some ein1
    ∧ el_type ein1 ≠ Some "password"
    ∧ el_at (document w2) [1; 0; 0] = Some ein2
    ∧ el_type ein2 = Some "password"
    ∧ el_at (document w2) [1; 0; 1; 0] = Some eic2
    ∧ same_tokens (el_classList eic2) ["fas"; "fa-eye"].
Proof.
  apply (togglePassword_twice_restores sample_world [1; 0; 1] [1; 0; 0] [1; 0; 1; 0]
           (input_el "password" "password" ∅) (el "i" "" ["fas"; "fa-eye"])).
  - reflexivity.
  - reflexivity.
  - reflexivity.
  - reflexivity.
  - left. split; [reflexivity|].
    split; apply (bool_decide_unpack _); vm_compute; exact I.
Defined.

(** C6 as stated fails: with a masked field whose icon shows the slashed
    eye, the markup precondition holds and both calls complete, but the
    icon ends with [fa-eye] in place of [fa-eye-slash]. *)
Lemma togglePassword_twice_changes_icon :
  previousElementSibling (document slashed_world) [1] = Some [0]
  ∧ querySelector (document slashed_world) [1] "i" = Some [1; 0]
  ∧ el_classList <$> el_at (document slashed_world) [1; 0]
    = Some ["fas"; "fa-eye-slash"]
  ∧ ∃ w1 w2,
      togglePassword [1] slashed_world = Normal () w1
      ∧ togglePassword [1] w1 = Normal () w2
      ∧ el_classList <$> el_at (document w2) [1; 0] = Some ["fas"; "fa-eye"]
      ∧ ¬ same_tokens ["fas"; "fa-eye"] ["fas"; "fa-eye-slash"].
Proof.
  split_and!; [reflexivity..|].
  eexists _, _. split_and!; [reflexivity..|].
  intros H. specialize (H "fa-eye-slash").
  assert (Hin : "fa-eye-slash" ∈ ["fas"; "fa-eye-slash"])
    by (apply (bool_decide_unpack _); vm_compute; exact I).
  assert (Hout : "fa-eye-slash" ∉ ["fas"; "fa-eye"])
    by (apply (bool_decide_unpack _); vm_compute; exact I).
  tauto.
Qed.

(** C9: [togglePassword] completes when the button has a previous
    element sibling and contains an icon; otherwise it throws a
    TypeError that nothing catches or reports. *)
Theorem togglePassword_throws_iff_markup_broken w button :
  match previousElementSibling (document w) button,
        querySelector (document w) button "i" with
  | Some _, Some _ => ∃ w', togglePassword button w = Normal () w'
  | _, _ =>
      ∃ msg w', togglePassword button w = Throw (TypeError msg) w'
                ∧ effects w' = effects w
                ∧ listeners w' = listeners w
                ∧ pending w' = pending w
  end.
Proof.
  destruct (previousElementSibling (document w) button) as [input|] eqn:Hin;
    destruct (querySelector (document w) button "i") as [icon|] eqn:Hic.
  - eexists. by apply togglePassword_ok.
  - unfold togglePassword. js_unfold. rewrite Hin, Hic.
    case_bool_decide; by eexists _, _.
  - unfold togglePassword. js_unfold. rewrite Hin. by eexists _, _.
  - unfold togglePassword. js_unfold. rewrite Hin. by eexists _, _.
Qed.

(** A button without an icon: the call throws after the input's type
    has already been switched. *)
Example togglePassword_missing_icon :
  let page := Elem (el "form" "" [])
                [ Elem (input_el "password" "password" ∅) [];
                  Elem (el "button" "" []) [] ] in
  ∃ msg w', togglePassword [1] (mkWorld page [] [] [] (λ _, half) 0)
            = Throw (TypeError msg) w'
            ∧ el_type <$> el_at (document w') [0] = Some (Some "text").
Proof. by eexists _, _. Qed.

Example togglePassword_missing_input :
  let page := Elem (el "form" "" [])
                [ Elem (el "button" "" []) [ Elem (el "i" "" ["fa-eye"]) [] ] ] in
  ∃ msg, togglePassword [0] (mkWorld page [] [] [] (λ _, half) 0)
         = Throw (TypeError msg) (mkWorld page [] [] [] (λ _, half) 0).
Proof. by eexists. Qed.
End Toggle.



(** ** Drag and drop upload *)

Section Upload.
Implicit Types (w : World) (d : Node) (p q : Path).

Lemma for_acc_append (files : list File) (done_ rest : list File) (fd : FormData) :
  files = (done_ ++ rest)%list →
  for_acc (length done_) (length rest)
    (λ i fd, match files !! i with
             | Some f => (fd ++ [("file", f)])%list
             | None => fd
             end) fd
  = (fd ++ ((λ f, ("file", f)) <$> rest))%list.
Proof.
  revert done_ fd. induction rest as [|f rest IH]; intros done_ fd Hfiles.
  - simpl. by rewrite app_nil_r.
  - cbn [length for_acc].
    assert (Hf : files !! length done_ = Some f).
    { rewrite Hfiles. by rewrite list_lookup_middle. }
    rewrite Hf.
    replace (S (length done_)) with (length (done_ ++ [f])%list)
      by (rewrite length_app; simpl; lia).
    rewrite IH by (by rewrite <- app_assoc).
    rewrite fmap_cons. by rewrite <- app_assoc.
Qed.

(** The form data has one [file] entry per file, in order. *)
Lemma handleUpload_spec files url w :
  handleUpload files url w
  = Normal ()
      (with_pending (λ l, (l ++ [UploadReaction])%list)
         (with_effects
            (λ l, (l ++ [EFetch url "POST" ((λ f, ("file", f)) <$> files)])%list) w)).
Proof.
  unfold handleUpload. js_unfold.
  pose proof (for_acc_append files [] files [] eq_refl) as H.
  cbn [length app] in H. by rewrite H.
Qed.

Lemma setupDropZone_aborts w zoneId inputId :
  misconfigured (document w) zoneId inputId →
  setupDropZone zoneId inputId w = Normal () w.
Proof.
  unfold setupDropZone. js_unfold.
  intros [Hz|[Hi|(fi & e & Hi & He & Hurl)]].
  - by rewrite Hz.
  - rewrite Hi. by destruct (getElementById _ zoneId).
  - rewrite Hi. destruct (getElementById _ zoneId); [|done].
    rewrite He. cbn [fmap option_fmap option_map default].
    by destruct Hurl as [->| ->].
Qed.

Lemma fire_no_listeners target e w :
  listeners_for target (ev_type e) (listeners w) = [] →
  fire target e w = Normal () w.
Proof. intros H. unfold fire. js_unfold. by rewrite H. Qed.

(** C3: when the zone, the input or the upload URL is missing,
    [setupDropZone] returns with the listener table (and everything else)
    as it was, so an event delivered to an element that had no listener
    before still changes nothing. *)
Theorem setupDropZone_misconfigured_inert w zoneId inputId :
  misconfigured (document w) zoneId inputId →
  setupDropZone zoneId inputId w = Normal () w
  ∧ ∀ target e,
      listeners_for target (ev_type e) (listeners w) = [] →
      fire target e (run (setupDropZone zoneId inputId) w)
      = Normal () w.
Proof.
  intros H. apply setupDropZone_aborts in H as Hs. split; [done|].
  intros target e Hl. unfold run. rewrite Hs. by apply fire_no_listeners.
Qed.
End Upload.

Section ConfiguredZone.
(** A zone whose setup succeeds, on a page where nothing listened for
    drops on the zone element before. *)
Variables (w0 : World) (zoneId inputId : string).
Variables (dropZone fileInput : Path) (input : Element) (uploadUrl : string).
Hypothesis Hzone : getElementById (document w0) zoneId = Some dropZone.
Hypothesis Hinput : getElementById (document w0) inputId = Some fileInput.
Hypothesis Hel : el_at (document w0) fileInput = Some input.
Hypothesis Hurl : el_dataset input !! "uploadUrl" = Some uploadUrl.
Hypothesis Hnonempty : uploadUrl ≠ "".
Hypothesis Hfresh : listeners_for dropZone Drop (listeners w0) = [].

Let configured : World := run (setupDropZone zoneId inputId) w0.

Lemma setupDropZone_registers :
  setupDropZone zoneId inputId w0
  = Normal ()
      (with_listeners
         (λ ls, (ls ++ [ mkReg dropZone Click (OnZoneClick fileInput);
                         mkReg dropZone Dragover (OnZoneDragover dropZone);
                         mkReg dropZone Dragleave (OnZoneDragleave dropZone);
                         mkReg dropZone Drop (OnZoneDrop dropZone fileInput uploadUrl);
                         mkReg fileInput Change (OnInputChange fileInput uploadUrl) ])%list)
         w0).
Proof.
  unfold setupDropZone. js_unfold. rewrite Hzone, Hinput, Hel.
  cbn [fmap option_fmap option_map default from_option id]. rewrite Hurl.
  unfold truthy. rewrite bool_decide_false by done.
  cbn [negb default from_option id]. unfold with_listeners.
  cbn [document listeners pending effects random_source random_used].
  by rewrite <- !app_assoc.
Qed.

Lemma configured_drop_listeners :
  listeners_for dropZone Drop (listeners configured)
  = [OnZoneDrop dropZone fileInput uploadUrl].
Proof.
  unfold configured, run. rewrite setupDropZone_registers.
  cbn [world_of with_listeners listeners]. unfold listeners_for in *.
  rewrite filter_app, fmap_app.
  apply fmap_nil_inv in Hfresh. rewrite Hfresh. cbn [fmap list_fmap app].
  rewrite !filter_cons, filter_nil. cbn [reg_target reg_type].
  repeat case_decide; destruct_and?; try done; naive_solver.
Qed.

Lemma fire_drop files :
  fire dropZone (mkEvent Drop files) configured
  = guarded (run_listener (OnZoneDrop dropZone fileInput uploadUrl)
               (mkEvent Drop files)) configured.
Proof.
  unfold fire. js_unfold. cbn [ev_type]. rewrite configured_drop_listeners.
  cbn [run_all]. js_unfold. unfold guarded.
  by destruct (run_listener _ _ _).
Qed.

(** C10: a drop without files on a configured zone starts no upload and
    leaves the input's file list alone; it only prevents the default
    action and removes the [dragover] class from the zone. *)
Theorem drop_without_files_uploads_nothing :
  ∃ w1,
    fire dropZone (mkEvent Drop []) configured = Normal () w1
    ∧ effects w1 = (effects configured ++ [EPreventDefault])%list
    ∧ pending w1 = pending configured
    ∧ listeners w1 = listeners configured
    ∧ document w1
      = update_el (λ e, set_classList (token_remove "dragover" (el_classList e)) e)
          dropZone (document configured)
    ∧ el_files <$> el_at (document w1) fileInput
      = el_files <$> el_at (document configured) fileInput.
Proof.
  rewrite fire_drop. unfold guarded, run_listener. js_unfold.
  cbn [ev_files length]. rewrite bool_decide_false by (intros H; by apply H).
  eexists. split; [done|]. split_and!; try done.
  cbn [document with_document]. by apply prop_update_el_preserved.
Qed.

(** C1: a drop carrying files [A, B] on a configured zone posts both
    files, in order, as [file] parts to the zone's URL; when the body of
    the response parses as JSON the page is reloaded, and when the fetch
    is rejected or the body is not JSON there is one alert and no
    reload. *)
Theorem drop_two_files_uploads A B :
  ∃ w1,
    fire dropZone (mkEvent Drop [A; B]) configured = Normal () w1
    ∧ effects w1
      = (effects configured
         ++ [EPreventDefault;
             EFetch uploadUrl "POST" [("file", A); ("file", B)]])%list
    ∧ pending w1 = (pending configured ++ [UploadReaction])%list
    ∧ ∀ outcome,
        let w2 := run (settle (length (pending configured)) outcome) w1 in
        match json_promise outcome with
        | Fulfilled data =>
            effects w2
            = (effects w1 ++ [EConsoleLog "Upload success:" data; EReload])%list
        | Rejected err =>
            effects w2
            = (effects w1 ++ [EConsoleError "Upload error:" err;
                              EAlert "An error occurred during upload."])%list
        end.
Proof.
  rewrite fire_drop. unfold guarded, run_listener. js_unfold.
  cbn [ev_files length]. rewrite bool_decide_true by done.
  rewrite handleUpload_spec. eexists. split; [done|].
  cbn [effects pending with_pending with_effects with_document].
  split; [by rewrite <- app_assoc|]. split; [done|].
  intros outcome. unfold settle. js_unfold.
  cbn [pending with_pending with_effects with_document].
  rewrite list_lookup_middle by done.
  unfold upload_reaction, json_promise, promise_then, promise_catch. js_unfold.
  destruct outcome as [|[st [data|raw]]]; cbn; by rewrite <- !app_assoc.
Qed.
End ConfiguredZone.

Section UploadOutcome.
(** C2: the alert is shown (and the page not reloaded) exactly when the
    promise chain rejects; a response whose body parses as JSON leads to
    the reload and no alert, whatever its status. *)
Theorem alert_iff_promise_rejects w outcome :
  ∃ w1 new,
    upload_reaction outcome w = Normal () w1
    ∧ effects w1 = (effects w ++ new)%list
    ∧ document w1 = document w
    ∧ (rejects (json_promise outcome)
       ↔ outcome = FetchFailed
         ∨ ∃ st raw, outcome = FetchResponse (mkResponse st (OtherBody raw)))
    ∧ (rejects (json_promise outcome)
       ↔ length (filter is_alert new) = 1 ∧ filter is_reload new = [])
    ∧ (∀ st data,
         outcome = FetchResponse (mkResponse st (JsonBody data)) →
         new = [EConsoleLog "Upload success:" data; EReload]).
Proof.
  unfold upload_reaction, json_promise, promise_then, promise_catch, rejects.
  js_unfold.
  destruct outcome as [|[st [data|raw]]];
    cbn [fetch_result response_json body].
  - eexists _, [_; _]. split; [reflexivity|].
    split; [cbn [effects with_effects]; by rewrite <- app_assoc|].
    split; [done|]. split_and!.
    + split; [by left|by eexists].
    + split; [done|by eexists].
    + intros ?? [=].
  - eexists _, [_; _]. split; [reflexivity|].
    split; [cbn [effects with_effects]; by rewrite <- app_assoc|].
    split; [done|]. split_and!.
    + split; [intros [? [=]]|intros [[=]|(? & ? & [=])]].
    + split; [intros [? [=]]|intros [[=] _]].
    + by intros ?? [= <- <-].
  - eexists _, [_; _]. split; [reflexivity|].
    split; [cbn [effects with_effects]; by rewrite <- app_assoc|].
    split; [done|]. split_and!.
    + split; [right; by eexists _, _|by eexists].
    + split; [done|by eexists].
    + intros ?? [=].
Qed.
End UploadOutcome.

Section UploadExamples.
Lemma setupDropZone_misconfigured_inert_witness :
  setupDropZone "video-drop-zone" "video-input" sample_world = Normal () sample_world
  ∧ ∀ target e,
      listeners_for target (ev_type e) (listeners sample_world) = [] →
      fire target e (run (setupDropZone "video-drop-zone" "video-input") sample_world)
      = Normal () sample_world.
Proof.
  apply (setupDropZone_misconfigured_inert sample_world "video-drop-zone" "video-input").
  right. right. exists [4; 0], (input_el "video-input" "file" ∅).
  split; [reflexivity|]. split; [reflexivity|]. left. reflexivity.
Defined.

Lemma drop_without_files_uploads_nothing_witness :
  let configured := run (setupDropZone "file-drop-zone" "file-input") sample_world in
  ∃ w1,
    fire [3] (mkEvent Drop []) configured = Normal () w1
    ∧ effects w1 = (effects configured ++ [EPreventDefault])%list
    ∧ pending w1 = pending configured
    ∧ listeners w1 = listeners configured
    ∧ document w1
      = update_el (λ e, set_classList (token_remove "dragover" (el_classList e)) e)
          [3] (document configured)
    ∧ el_files <$> el_at (document w1) [3; 0]
      = el_files <$> el_at (document configured) [3; 0].
Proof.
  apply (drop_without_files_uploads_nothing sample_world "file-drop-zone" "file-input"
           [3] [3; 0] (input_el "file-input" "file" {[ "uploadUrl" := "/upload" ]})
           "/upload").
  - reflexivity.
  - reflexivity.
  - reflexivity.
  - reflexivity.
  - discriminate.
  - reflexivity.
Defined.

Lemma drop_two_files_uploads_witness :
  let configured := run (setupDropZone "file-drop-zone" "file-input") sample_world in
  ∃ w1,
    fire [3] (mkEvent Drop [fileA; fileB]) configured = Normal () w1
    ∧ effects w1
      = (effects configured
         ++ [EPreventDefault;
             EFetch "/upload" "POST" [("file", fileA); ("file", fileB)]])%list
    ∧ pending w1 = (pending configured ++ [UploadReaction])%list
    ∧ ∀ outcome,
        let w2 := run (settle (length (pending configured)) outcome) w1 in
        match json_promise outcome with
        | Fulfilled data =>
            effects w2
            = (effects w1 ++ [EConsoleLog "Upload success:" data; EReload])%list
        | Rejected err =>
            effects w2
            = (effects w1 ++ [EConsoleError "Upload error:" err;
                              EAlert "An error occurred during upload."])%list
        end.
Proof.
  apply (drop_two_files_uploads sample_world "file-drop-zone" "file-input"
           [3] [3; 0] (input_el "file-input" "file" {[ "uploadUrl" := "/upload" ]})
           "/upload").
  - reflexivity.
  - reflexivity.
  - reflexivity.
  - reflexivity.
  - discriminate.
  - reflexivity.
Defined.

(** A server error with a JSON body is treated as success. *)
Example error_status_with_json_reloads :
  effects (run (upload_reaction
                  (FetchResponse (mkResponse 500 (JsonBody (JObj [("error", JStr "disk full")])))))
             sample_world)
  = [EConsoleLog "Upload success:" (JObj [("error", JStr "disk full")]); EReload].
Proof. reflexivity. Qed.

Example html_error_page_alerts :
  effects (run (upload_reaction
                  (FetchResponse (mkResponse 502 (OtherBody "<html>Bad Gateway</html>"))))
             sample_world)
  = [EConsoleError "Upload error:" (SyntaxError "Unexpected token in JSON");
     EAlert "An error occurred during upload."].
Proof. reflexivity. Qed.

(** The change listener of a configured input uploads the chosen files. *)
Example change_uploads_selection :
  let configured := run (setupDropZone "file-drop-zone" "file-input") sample_world in
  let chosen := with_document (update_el (set_files [fileA]) [3; 0]) configured in
  effects (run (fire [3; 0] (mkEvent Change [])) chosen)
  = [EFetch "/upload" "POST" [("file", fileA)]].
Proof. reflexivity. Qed.
End UploadExamples.

(** ** Rounding of binary64 products and sums *)

Section Rounding.
Local Open Scope Z_scope.

Lemma iter_pos_nat {A} (f : A → A) p x :
  SpecFloat.iter_pos f p x = Nat.iter (Pos.to_nat p) f x.
Proof.
  revert x. induction p as [p IH|p IH|]; intros x; cbn [SpecFloat.iter_pos].
  - rewrite !IH, Pos2Nat.inj_xI, <- Nat.iter_succ_r, <- Nat.iter_add.
    f_equal. lia.
  - rewrite !IH, Pos2Nat.inj_xO, <- Nat.iter_add. f_equal. lia.
  - done.
Qed.

Lemma shr_1_nonneg m r s :
  0 <= m →
  shr_1 (Build_shr_record m r s) = Build_shr_record (m / 2) (Z.odd m) (r || s).
Proof.
  intros Hm. rewrite <- Z.div2_div.
  by destruct m as [|[p|p|]|].
Qed.

(** After [k] one-bit shifts of [M] the record holds the quotient, and
    its round and sticky bits locate the remainder against one half. *)
Lemma shr_iter M n :
  0 <= M →
  let mrs := Nat.iter n shr_1 (Build_shr_record M false false) in
  let k := Z.of_nat n in
  shr_m mrs = M / 2 ^ k
  ∧ ∃ u, 2 * (M mod 2 ^ k) = (if shr_r mrs then 2 ^ k else 0) + u
         ∧ (if shr_s mrs then 0 < u < 2 ^ k else u = 0).
Proof.
  intros HM. induction n as [|n IH].
  - simpl. split; [by rewrite Z.div_1_r|]. exists 0. by rewrite Z.mod_1_r.
  - rewrite Nat.iter_succ. cbn zeta in *.
    destruct (Nat.iter n shr_1 _) as [m r s]. cbn [shr_m shr_r shr_s] in *.
    destruct IH as (Hm & u & Hu & Hs).
    assert (Hk : 0 <= Z.of_nat n) by lia.
    assert (Hpow : 0 < 2 ^ Z.of_nat n) by (apply Z.pow_pos_nonneg; lia).
    assert (Hm0 : 0 <= m) by (subst m; apply Z.div_pos; lia).
    rewrite shr_1_nonneg by done. cbn [shr_m shr_r shr_s].
    rewrite Nat2Z.inj_succ, Z.pow_succ_r by done.
    split.
    + subst m. rewrite Z.div_div by lia. f_equal. lia.
    + exists ((if r then 2 ^ Z.of_nat n else 0) + u).
      replace (2 * 2 ^ Z.of_nat n) with (2 ^ Z.of_nat n * 2) by lia.
      rewrite Z.rem_mul_r by lia. rewrite <- Hm, Zmod_odd.
      split.
      * destruct (Z.odd m); lia.
      * destruct r, s; simpl; lia.
Qed.

Lemma shr_spec M e n :
  0 <= M →
  let k := Z.max 0 n in
  ∃ mrs,
    shr (Build_shr_record M false false) e n = (mrs, e + k)
    ∧ shr_m mrs = M / 2 ^ k
    ∧ ∃ u, 2 * (M mod 2 ^ k) = (if shr_r mrs then 2 ^ k else 0) + u
           ∧ (if shr_s mrs then 0 < u < 2 ^ k else u = 0).
Proof.
  intros HM k. subst k. destruct n as [|p|p]; cbn [shr].
  - rewrite Z.max_l by lia. eexists. split; [by rewrite Z.add_0_r|].
    apply (shr_iter M 0 HM).
  - rewrite Z.max_r by lia. eexists. split; [done|].
    rewrite iter_pos_nat.
    pose proof (shr_iter M (Pos.to_nat p) HM) as H. cbn zeta in H.
    by rewrite positive_nat_Z in H.
  - rewrite Z.max_l by lia. eexists. split; [by rewrite Z.add_0_r|].
    apply (shr_iter M 0 HM).
Qed.

(** Rounding to nearest-even, from the round and sticky bits. *)
Lemma round_nearest_even_spec M k mrs u :
  0 <= M → 0 <= k →
  shr_m mrs = M / 2 ^ k →
  2 * (M mod 2 ^ k) = (if shr_r mrs then 2 ^ k else 0) + u →
  (if shr_s mrs then 0 < u < 2 ^ k else u = 0) →
  let q := M / 2 ^ k in
  let m1 := round_nearest_even (shr_m mrs) (loc_of_shr_record mrs) in
  q <= m1 <= q + 1
  ∧ (M mod 2 ^ k = 0 → m1 = q)
  ∧ (2 * (M mod 2 ^ k) < 2 ^ k → m1 = q).
Proof.
  intros HM Hk Hm Hu Hs q m1. subst q m1.
  assert (Hpow : 0 < 2 ^ k) by (apply Z.pow_pos_nonneg; lia).
  destruct mrs as [m [] []]; cbn [shr_m shr_r shr_s loc_of_shr_record] in *;
    subst m; unfold round_nearest_even; try destruct (Z.even _); lia.
Qed.

(** What [binary_round_aux] computes from an exact positive mantissa:
    the quotient at the target exponent, rounded to nearest-even, and
    renormalised when rounding carried into a new bit. *)
Lemma binary_round_aux_spec (M : positive) (E : Z) :
  let e1 := Z.max E (fexp prec emax (Z.pos (digits2_pos M) + E)) in
  let k1 := e1 - E in
  ∃ m1,
    Z.pos M / 2 ^ k1 <= m1 <= Z.pos M / 2 ^ k1 + 1
    ∧ (Z.pos M mod 2 ^ k1 = 0 → m1 = Z.pos M / 2 ^ k1)
    ∧ (2 * (Z.pos M mod 2 ^ k1) < 2 ^ k1 → m1 = Z.pos M / 2 ^ k1)
    ∧ let e2 := Z.max e1 (fexp prec emax (Zdigits2 m1 + e1)) in
      binary_round_aux prec emax false (Z.pos M) E loc_Exact
      = match m1 / 2 ^ (e2 - e1) with
        | 0 => S754_zero false
        | Z.pos m =>
            if e2 <=? emax - prec
            then S754_finite false m e2 else S754_infinity false
        | Z.neg _ => S754_nan
        end.
Proof.
  intros e1 k1. unfold binary_round_aux, shr_fexp.
  cbn [Zdigits2 shr_record_of_loc].
  set (n1 := fexp prec emax (Z.pos (digits2_pos M) + E) - E).
  destruct (shr_spec (Z.pos M) E n1 ltac:(lia)) as (mrs1 & Hshr & Hm & u & Hu & Hs).
  rewrite Hshr.
  replace (Z.max 0 n1) with k1 in * by (subst k1 e1 n1; lia).
  replace (E + k1) with e1 by (subst k1; lia).
  assert (Hk1 : 0 <= k1) by (subst k1 e1; lia).
  destruct (round_nearest_even_spec (Z.pos M) k1 mrs1 u ltac:(lia) Hk1 Hm Hu Hs)
    as (Hq & Hex & Hlt).
  set (m1 := round_nearest_even (shr_m mrs1) (loc_of_shr_record mrs1)) in *.
  exists m1. split; [exact Hq|]. split; [exact Hex|]. split; [exact Hlt|].
  assert (Hm1 : 0 <= m1).
  { assert (0 <= Z.pos M / 2 ^ k1) by (apply Z.div_pos; [lia|apply Z.pow_pos_nonneg; lia]).
    lia. }
  set (n2 := fexp prec emax (Zdigits2 m1 + e1) - e1).
  destruct (shr_spec m1 e1 n2 Hm1) as (mrs2 & Hshr2 & Hm2 & _).
  cbn zeta. rewrite Hshr2, Hm2.
  replace (e1 + Z.max 0 n2) with (Z.max e1 (fexp prec emax (Zdigits2 m1 + e1)))
    by (subst n2; lia).
  replace (Z.max e1 (fexp prec emax (Zdigits2 m1 + e1)) - e1) with (Z.max 0 n2)
    by (subst n2; lia).
  done.
Qed.

Lemma pow2_52 : 2 ^ 52 = 4503599627370496.
Proof. vm_compute. reflexivity. Qed.

Lemma pow2_53 : 2 ^ 53 = 9007199254740992.
Proof. vm_compute. reflexivity. Qed.

Lemma fexp_eq e : fexp prec emax e = Z.max (e - 53) (-1074).
Proof. reflexivity. Qed.

Lemma digits2_pos_bounds (M : positive) :
  2 ^ (Z.pos (digits2_pos M) - 1) <= Z.pos M < 2 ^ Z.pos (digits2_pos M).
Proof.
  induction M as [M IH|M IH|]; cbn [digits2_pos].
  - rewrite Pos2Z.inj_succ, Z.pow_succ_r by lia.
    replace (Z.succ (Z.pos (digits2_pos M)) - 1)
      with (Z.succ (Z.pos (digits2_pos M) - 1)) by lia.
    rewrite Z.pow_succ_r by lia. lia.
  - rewrite Pos2Z.inj_succ, Z.pow_succ_r by lia.
    replace (Z.succ (Z.pos (digits2_pos M)) - 1)
      with (Z.succ (Z.pos (digits2_pos M) - 1)) by lia.
    rewrite Z.pow_succ_r by lia. lia.
  - done.
Qed.

Lemma Zdigits2_le m P : 0 <= m → 0 <= P → m < 2 ^ P → Zdigits2 m <= P.
Proof.
  intros Hm HP Hlt. destruct m as [|M|M]; cbn [Zdigits2]; [lia| |lia].
  pose proof (digits2_pos_bounds M) as [Hlo _].
  destruct (Z.le_gt_cases (Z.pos (digits2_pos M)) P) as [|Hgt]; [done|].
  assert (2 ^ P <= 2 ^ (Z.pos (digits2_pos M) - 1))
    by (apply Z.pow_le_mono_r; lia).
  lia.
Qed.

Lemma Zdigits2_nonneg m : 0 <= Zdigits2 m.
Proof. destruct m; cbn [Zdigits2]; lia. Qed.

Lemma Zdigits2_lt_pow m : 0 <= m → m < 2 ^ Zdigits2 m.
Proof.
  intros Hm. destruct m as [|M|M]; cbn [Zdigits2]; [done| |lia].
  apply digits2_pos_bounds.
Qed.

Lemma pos_pow2 t : t < 0 → Z.pos (2 ^ Z.to_pos (- t)) = 2 ^ (- t).
Proof. intros Ht. rewrite Pos2Z.inj_pow, Z2Pos.id by lia. done. Qed.

Lemma dyadic_same_exp a b t : (dyadic a t <= dyadic b t)%Q ↔ a <= b.
Proof.
  unfold dyadic. destruct (Z.leb_spec 0 t) as [Ht|Ht].
  - rewrite <- Zle_Qle.
    assert (0 < 2 ^ t) by (apply Z.pow_pos_nonneg; lia).
    split; [apply Z.mul_le_mono_pos_r|intros; apply Z.mul_le_mono_nonneg_r]; lia.
  - unfold Qle. cbn [Qnum Qden].
    split; [apply Z.mul_le_mono_pos_r|intros; apply Z.mul_le_mono_nonneg_r]; lia.
Qed.

Lemma dyadic_scale m e t :
  t <= e → (dyadic m e == dyadic (m * 2 ^ (e - t)) t)%Q.
Proof.
  intros Hte. unfold dyadic.
  destruct (Z.leb_spec 0 e) as [He|He]; destruct (Z.leb_spec 0 t) as [Ht|Ht];
    try lia.
  - rewrite <- Z.mul_assoc, <- Z.pow_add_r by lia.
    replace (e - t + t) with e by lia. reflexivity.
  - unfold Qeq. cbn [Qnum Qden inject_Z]. rewrite pos_pow2 by done.
    rewrite <- Z.mul_assoc, <- Z.pow_add_r by lia.
    replace (e - t) with (e + - t) by lia. lia.
  - unfold Qeq. cbn [Qnum Qden]. rewrite !pos_pow2 by lia.
    rewrite <- !Z.mul_assoc, <- Z.pow_add_r by lia.
    replace (e - t + - e) with (- t) by lia. done.
Qed.

(** Comparing two dyadic numbers on a common grid. *)
Lemma dyadic_le_iff m e m' e' t :
  t <= e → t <= e' →
  (dyadic m e <= dyadic m' e')%Q ↔ m * 2 ^ (e - t) <= m' * 2 ^ (e' - t).
Proof.
  intros He He'.
  rewrite (dyadic_scale m e t He), (dyadic_scale m' e' t He').
  apply dyadic_same_exp.
Qed.

Lemma dyadic_0 e : (dyadic 0 e == 0)%Q.
Proof. unfold dyadic. by destruct (0 <=? e). Qed.

Lemma fexp_mono a b : a <= b → fexp prec emax a <= fexp prec emax b.
Proof. rewrite !fexp_eq. lia. Qed.

Lemma pow2_split a b : 0 <= a → 0 <= b → 2 ^ (a + b) = 2 ^ a * 2 ^ b.
Proof. intros. by rewrite Z.pow_add_r. Qed.

(** Rounding does not cross a grid point: an exact value between
    [L * 2^l] and [K * 2^k], where [K * 2^k] lies on its own binary64
    grid and [l] is at least as coarse, rounds to a finite value between
    the same bounds. *)
Lemma round_between (M : positive) E L l K k :
  E <= k → k <= l → k <= emax - prec →
  fexp prec emax (Zdigits2 K + k) <= k →
  0 <= L → 0 < K →
  L * 2 ^ (l - E) <= Z.pos M <= K * 2 ^ (k - E) →
  let r := binary_round_aux prec emax false (Z.pos M) E loc_Exact in
  is_finite r = true
  ∧ (dyadic L l <= value r)%Q ∧ (value r <= dyadic K k)%Q.
Proof.
  intros HEk Hkl Hkmax HK HL0 HK0 [HLM HMK] r. subst r.
  destruct (binary_round_aux_spec M E) as (m1 & [Hq1 Hq2] & Hex & _ & Hr).
  cbn zeta in Hr. rewrite Hr. clear Hr.
  set (d := Z.pos (digits2_pos M)) in *.
  set (e1 := Z.max E (fexp prec emax (d + E))) in *.
  set (k1 := e1 - E) in *.
  pose proof (digits2_pos_bounds M) as [Hdlo Hdhi]. fold d in Hdlo, Hdhi.
  assert (Hk1 : 0 <= k1) by (subst k1 e1; lia).
  assert (Hp1 : 0 < 2 ^ k1) by (apply Z.pow_pos_nonneg; lia).
  (* the magnitude of M is at most that of K * 2^k *)
  assert (HdK : d + E <= Zdigits2 K + k).
  { pose proof (Zdigits2_lt_pow K ltac:(lia)) as HKd.
    pose proof (Zdigits2_nonneg K) as HdK0.
    assert (Hlt : 2 ^ (d - 1) < 2 ^ (Zdigits2 K + (k - E))).
    { rewrite pow2_split by lia.
      assert (0 < 2 ^ (k - E)) by (apply Z.pow_pos_nonneg; lia). nia. }
    apply Z.pow_lt_mono_r_iff in Hlt; lia. }
  assert (He1k : e1 <= k).
  { subst e1. pose proof (fexp_mono _ _ HdK). lia. }
  set (G := K * 2 ^ (k - e1)).
  assert (HGM : K * 2 ^ (k - E) = G * 2 ^ k1).
  { subst G k1. rewrite <- Z.mul_assoc, <- pow2_split by lia. f_equal. f_equal. lia. }
  assert (Hm1G : m1 <= G).
  { destruct (Z.eq_dec (Z.pos M mod 2 ^ k1) 0) as [H0|Hn0].
    - rewrite (Hex H0). apply Z.div_le_upper_bound; lia.
    - assert (Z.pos M ≠ G * 2 ^ k1).
      { intros Heq. rewrite Heq, Z.mod_mul in Hn0 by lia. done. }
      assert (Z.pos M / 2 ^ k1 < G) by (apply Z.div_lt_upper_bound; lia).
      lia. }
  set (Lg := L * 2 ^ (l - e1)).
  assert (HSm1 : Lg <= m1).
  { assert (Lg <= Z.pos M / 2 ^ k1); [|lia].
    apply Z.div_le_lower_bound; [lia|].
    subst Lg k1. rewrite Z.mul_comm, <- Z.mul_assoc, <- pow2_split by lia.
    replace (l - e1 + (e1 - E)) with (l - E) by lia. done. }
  assert (Hm10 : 0 <= m1).
  { assert (0 <= Z.pos M / 2 ^ k1) by (apply Z.div_pos; lia). lia. }
  (* the final exponent stays at or below k *)
  set (e2 := Z.max e1 (fexp prec emax (Zdigits2 m1 + e1))).
  assert (He2k : e2 <= k).
  { assert (Zdigits2 m1 <= Zdigits2 K + (k - e1)).
    { pose proof (Zdigits2_nonneg K). pose proof (Zdigits2_lt_pow K ltac:(lia)).
      apply Zdigits2_le; [done|lia|].
      rewrite pow2_split by lia.
      assert (0 < 2 ^ (k - e1)) by (apply Z.pow_pos_nonneg; lia).
      subst G. nia. }
    subst e2. pose proof (fexp_mono (Zdigits2 m1 + e1) (Zdigits2 K + k) ltac:(lia)).
    lia. }
  assert (He12 : e1 <= e2) by (subst e2; lia).
  assert (Hp2 : 0 < 2 ^ (e2 - e1)) by (apply Z.pow_pos_nonneg; lia).
  set (m2 := m1 / 2 ^ (e2 - e1)).
  assert (Hm2up : m2 * 2 ^ (e2 - e1) <= m1).
  { subst m2. rewrite Z.mul_comm. apply Z.mul_div_le. lia. }
  assert (Hm2lo : L * 2 ^ (l - e2) <= m2).
  { subst m2. apply Z.div_le_lower_bound; [lia|].
    rewrite Z.mul_comm, <- Z.mul_assoc, <- pow2_split by lia.
    replace (l - e2 + (e2 - e1)) with (l - e1) by lia. done. }
  assert (Hm20 : 0 <= m2) by (subst m2; apply Z.div_pos; lia).
  assert (Hlo : (dyadic L l <= dyadic m2 e2)%Q).
  { apply (dyadic_le_iff _ _ _ _ e2); [lia|lia|].
    rewrite Z.sub_diag, Z.mul_1_r. done. }
  assert (Hhi : (dyadic m2 e2 <= dyadic K k)%Q).
  { apply (dyadic_le_iff _ _ _ _ e1); [lia|lia|]. subst G. lia. }
  destruct m2 as [|m|m] eqn:Hm2; [| |lia].
  - cbn [is_finite value]. split; [done|].
    rewrite dyadic_0 in Hlo, Hhi. done.
  - rewrite (proj2 (Z.leb_le e2 (emax - prec))) by lia.
    cbn [is_finite value]. done.
Qed.

(** On the grid of exponent [k], an exact value below the midpoint of
    [K * 2^k] and the next grid point rounds to at most [K * 2^k]. *)
Lemma round_below_mid (M : positive) E K k :
  Z.max E (fexp prec emax (Z.pos (digits2_pos M) + E)) = k →
  k <= emax - prec →
  fexp prec emax (Zdigits2 K + k) <= k →
  0 <= K →
  2 * Z.pos M < (2 * K + 1) * 2 ^ (k - E) →
  let r := binary_round_aux prec emax false (Z.pos M) E loc_Exact in
  is_finite r = true ∧ (0 <= value r)%Q ∧ (value r <= dyadic K k)%Q.
Proof.
  intros He1 Hkmax HK HK0 Hmid r. subst r.
  destruct (binary_round_aux_spec M E) as (m1 & [Hq1 Hq2] & _ & Hlt & Hr).
  cbn zeta in Hr. rewrite Hr. clear Hr. rewrite He1 in *.
  set (k1 := k - E) in *.
  assert (Hk1 : 0 <= k1) by (subst k1; lia).
  assert (Hp1 : 0 < 2 ^ k1) by (apply Z.pow_pos_nonneg; lia).
  pose proof (Z.div_mod (Z.pos M) (2 ^ k1) ltac:(lia)) as Hdm.
  pose proof (Z.mod_pos_bound (Z.pos M) (2 ^ k1) Hp1) as Hrem.
  assert (Hq0 : 0 <= Z.pos M / 2 ^ k1) by (apply Z.div_pos; lia).
  assert (Hm1K : m1 <= K).
  { destruct (Z.lt_ge_cases (Z.pos M / 2 ^ k1) K) as [|Hge]; [lia|].
    assert (Z.pos M / 2 ^ k1 = K) by nia.
    rewrite Hlt; [lia|]. nia. }
  assert (Hm10 : 0 <= m1) by lia.
  assert (He2 : Z.max k (fexp prec emax (Zdigits2 m1 + k)) = k).
  { assert (Zdigits2 m1 <= Zdigits2 K).
    { pose proof (Zdigits2_nonneg K). pose proof (Zdigits2_lt_pow K HK0).
      apply Zdigits2_le; lia. }
    pose proof (fexp_mono (Zdigits2 m1 + k) (Zdigits2 K + k) ltac:(lia)). lia. }
  rewrite He2, Z.sub_diag, Z.pow_0_r, Z.div_1_r.
  assert (Hhi : (dyadic m1 k <= dyadic K k)%Q) by (by apply dyadic_same_exp).
  assert (Hlo : (dyadic 0 k <= dyadic m1 k)%Q) by (by apply dyadic_same_exp).
  rewrite dyadic_0 in Hlo.
  destruct m1 as [|m|m]; [| |lia].
  - cbn [is_finite value]. split; [done|]. split; [done|].
    rewrite <- (dyadic_0 k). apply dyadic_same_exp. done.
  - rewrite (proj2 (Z.leb_le k (emax - prec))) by lia.
    cbn [is_finite value]. done.
Qed.

(** A product rounded from a positive mantissa is never negative. *)
Lemma binary_round_aux_sign (M : positive) E :
  match binary_round_aux prec emax false (Z.pos M) E loc_Exact with
  | S754_zero s | S754_finite s _ _ => s = false
  | _ => True
  end.
Proof.
  destruct (binary_round_aux_spec M E) as (m1 & _ & _ & _ & Hr).
  cbn zeta in Hr. rewrite Hr.
  destruct (m1 / _) as [|m|m]; [done| |done]. by destruct (_ <=? _).
Qed.

Lemma num_1 : num 1 = S754_finite false 4503599627370496 (-52).
Proof. reflexivity. Qed.
Lemma num_3 : num 3 = S754_finite false 6755399441055744 (-51).
Proof. reflexivity. Qed.
Lemma num_5 : num 5 = S754_finite false 5629499534213120 (-50).
Proof. reflexivity. Qed.
Lemma num_100 : num 100 = S754_finite false 7036874417766400 (-46).
Proof. reflexivity. Qed.

(** A value [Math.random()] may return is zero, or has a mantissa below
    [2^53] and an exponent of at most [-53]. *)
Lemma random_value_inv x :
  is_random_value x = true →
  x = S754_zero false
  ∨ ∃ mx ex, x = S754_finite false mx ex
             ∧ Z.pos mx < 2 ^ 53 ∧ -1074 <= ex <= -53.
Proof.
  destruct x as [[]|[]| |[] mx ex]; cbn [is_random_value]; try done.
  - by left.
  - intros [Hb Hlt]%andb_prop. right. exists mx, ex. split; [done|].
    apply andb_prop in Hb as [Hc _]. unfold canonical_mantissa in Hc.
    apply Z.eqb_eq in Hc. rewrite fexp_eq in Hc.
    pose proof (digits2_pos_bounds mx) as [Hlo Hhi].
    set (dx := Z.pos (digits2_pos mx)) in *.
    assert (Hdx : dx <= 53) by lia.
    assert (Hmx : Z.pos mx < 2 ^ 53).
    { assert (2 ^ dx <= 2 ^ 53) by (apply Z.pow_le_mono_r; lia). lia. }
    split; [done|]. split; [lia|].
    rewrite num_1 in Hlt. unfold SFltb, SFcompare in Hlt.
    destruct (Z.compare_spec ex (-52)) as [Heq|Hl|Hg]; [|lia|done].
    exfalso. subst ex. assert (dx = 53) by lia.
    destruct (Pos.compare_cont Eq mx 4503599627370496) eqn:Hcmp; try done.
    assert (Hltp : Z.pos mx < 4503599627370496) by exact Hcmp.
    replace (dx - 1) with 52 in Hlo by lia.
    rewrite pow2_52 in Hlo. lia.
Qed.

(** The product of a random value with a constant [mc * 2^ec] that is
    not a power of two stays at or below the binary64 number just under
    the constant. *)
Lemma mul_const_range mc ec x :
  2 ^ 52 < Z.pos mc < 2 ^ 53 →
  -1000 <= ec <= 900 →
  is_random_value x = true →
  let r := mul x (S754_finite false mc ec) in
  is_finite r = true
  ∧ (0 <= value r)%Q
  ∧ (value r <= dyadic (Z.pos mc - 1) ec)%Q
  ∧ match r with S754_zero s | S754_finite s _ _ => s = false | _ => True end.
Proof.
  intros [Hmc1 Hmc2] Hec Hx r. subst r.
  assert (HKpos : (0 <= dyadic (Z.pos mc - 1) ec)%Q).
  { rewrite <- (dyadic_0 ec). apply dyadic_same_exp. lia. }
  destruct (random_value_inv x Hx) as [->|(mx & ex & -> & Hmx & Hex)].
  { cbn [mul SFmul xorb is_finite value]. done. }
  unfold mul. cbn [SFmul xorb].
  cut (let r := binary_round_aux prec emax false (Z.pos (mx * mc)) (ex + ec)
                  loc_Exact in
       is_finite r = true ∧ (0 <= value r)%Q
       ∧ (value r <= dyadic (Z.pos mc - 1) ec)%Q).
  { cbn zeta. intros (H1 & H2 & H3).
    split_and!; [done|done|done|apply binary_round_aux_sign]. }
  clear HKpos Hx.
  pose proof (digits2_pos_bounds (mx * mc)) as [Hdlo Hdhi].
  pose proof (round_below_mid (mx * mc) (ex + ec) (Z.pos mc - 1) ec) as Hmid.
  pose proof (round_between (mx * mc) (ex + ec) 0 ec (2 ^ 52) ec) as Hbtw.
  cbn zeta in *.
  set (r := binary_round_aux _ _ _ _ _ _) in *.
  set (d := Z.pos (digits2_pos (mx * mc))) in *.
  rewrite Pos2Z.inj_mul in *.
  replace (ec - (ex + ec)) with (- ex) in * by lia.
  rewrite !fexp_eq in *.
  change (Zdigits2 (2 ^ 52)) with 53 in Hbtw.
  assert (HT : 2 ^ 53 <= 2 ^ (- ex)) by (apply Z.pow_le_mono_r; lia).
  assert (Hd1 : 53 <= d).
  { destruct (Z.le_gt_cases 53 d) as [|Hgt]; [done|].
    assert (2 ^ d <= 2 ^ 52) by (apply Z.pow_le_mono_r; lia). nia. }
  assert (Hd2 : d + ex <= 53).
  { destruct (Z.le_gt_cases (d + ex) 53) as [|Hgt]; [done|].
    assert (2 ^ (53 - ex) <= 2 ^ (d - 1)) by (apply Z.pow_le_mono_r; lia).
    replace (53 - ex) with (53 + - ex) in * by lia.
    rewrite (pow2_split 53 (- ex)) in * by lia.
    assert (Z.pos mx * Z.pos mc < 2 ^ (- ex) * 2 ^ 53)
      by (apply Z.mul_lt_mono_nonneg; lia).
    lia. }
  assert (HdK : Zdigits2 (Z.pos mc - 1) <= 53) by (apply Zdigits2_le; lia).
  destruct (Z.eq_dec (d + ex) 53) as [Heq|Hne].
  - (* the product lies in the binade of the constant *)
    apply Hmid; [lia|unfold emax, prec; lia|lia|lia|].
    assert (Z.pos mx * (2 * Z.pos mc) <= (2 ^ 53 - 1) * (2 * Z.pos mc))
      by (apply Z.mul_le_mono_nonneg_r; lia).
    assert ((2 * Z.pos mc - 1) * 2 ^ 53 <= (2 * Z.pos mc - 1) * 2 ^ (- ex))
      by (apply Z.mul_le_mono_nonneg_l; lia).
    lia.
  - (* the product lies below that binade *)
    destruct Hbtw as (H1 & H2 & H3); [lia|lia|unfold emax, prec; lia|lia|lia|lia| |].
    + split; [lia|]. rewrite <- (pow2_split 52 (- ex)) by lia.
      assert (2 ^ d <= 2 ^ (52 + - ex)) by (apply Z.pow_le_mono_r; lia). lia.
    + rewrite dyadic_0 in H2. split; [done|]. split; [done|].
      apply (Qle_trans _ _ _ H3). apply dyadic_same_exp. lia.
Qed.

Lemma iter_xO_pow mx d : Z.pos (Pos.iter xO mx d) = Z.pos mx * 2 ^ Z.pos d.
Proof.
  induction d as [|d IH] using Pos.peano_ind.
  - cbn [Pos.iter]. lia.
  - rewrite Pos.iter_succ, Pos2Z.inj_xO, IH, Pos2Z.inj_succ, Z.pow_succ_r by lia.
    lia.
Qed.

(** Aligning a mantissa to a smaller exponent keeps the value. *)
Lemma shl_align_spec mx ex ex' :
  snd (shl_align mx ex ex') = Z.min ex ex'
  ∧ Z.pos (fst (shl_align mx ex ex'))
    = Z.pos mx * 2 ^ (ex - Z.min ex ex').
Proof.
  unfold shl_align. destruct (ex' - ex) as [|d|d] eqn:Hd; cbn [fst snd].
  - rewrite Z.min_l by lia. rewrite Z.sub_diag. lia.
  - rewrite Z.min_l by lia. rewrite Z.sub_diag. lia.
  - rewrite Z.min_r by lia. rewrite iter_xO_pow.
    split; [done|]. f_equal. f_equal. lia.
Qed.

(** Adding five to a non-negative value of at most the number just under
    five gives a value between five and ten, both included. *)
Lemma add_five_range y :
  match y with S754_zero s | S754_finite s _ _ => s = false | _ => True end →
  is_finite y = true →
  (0 <= value y)%Q →
  (value y <= dyadic (5629499534213120 - 1) (-50))%Q →
  let r := add y (num 5) in
  is_finite r = true ∧ (inject_Z 5 <= value r)%Q ∧ (value r <= inject_Z 10)%Q.
Proof.
  intros Hsign Hfin Hlo Hhi r. subst r. rewrite num_5.
  destruct y as [[]|[]| |[] my ey]; try done.
  unfold add. cbn [SFadd cond_Zopp]. cbn [value] in Hhi.
  set (ez := Z.min ey (-50)).
  destruct (shl_align_spec my ey ez) as [_ Ha].
  destruct (shl_align_spec 5629499534213120 (-50) ez) as [_ Hb].
  replace (Z.min ey ez) with ez in Ha by (subst ez; lia).
  replace (Z.min (-50) ez) with ez in Hb by (subst ez; lia).
  set (a := fst (shl_align my ey ez)) in *.
  set (b := fst (shl_align 5629499534213120 (-50) ez)) in *.
  change (Z.pos a + Z.pos b) with (Z.pos (a + b)).
  cbn [binary_normalize]. unfold binary_round.
  set (ef := fexp prec emax (Z.pos (digits2_pos (a + b)) + ez)).
  destruct (shl_align_spec (a + b) ez ef) as [He Hm].
  destruct (shl_align (a + b) ez ef) as [mz ez'] eqn:Hsh. cbn [fst snd] in He, Hm.
  assert (Hez : ez' <= ez) by lia.
  assert (Hez50 : ez <= -50) by (subst ez; lia).
  assert (Hezy : ez <= ey) by (subst ez; lia).
  pose proof (round_between mz ez' 5 0 5629499534213120 (-49)) as Hr.
  cbn zeta in Hr.
  destruct Hr as (H1 & H2 & H3); [lia|lia|done|done|lia|lia| |].
  - apply (dyadic_le_iff _ _ _ _ ez') in Hhi; [|lia|lia].
    rewrite Hm, Pos2Z.inj_add, Ha, Hb, <- He.
    set (A := 2 ^ (-50 - ez')) in *.
    assert (HA : 0 < A) by (apply Z.pow_pos_nonneg; lia).
    assert (Hy0 : 0 <= Z.pos my * 2 ^ (ey - ez'))
      by (apply Z.mul_nonneg_nonneg; [lia|apply Z.pow_nonneg; lia]).
    rewrite Z.mul_add_distr_r, <- !Z.mul_assoc, <- !pow2_split by lia.
    replace (ey - ez + (ez - ez')) with (ey - ez') by lia.
    replace (-50 - ez + (ez - ez')) with (-50 - ez') by lia. fold A.
    replace (2 ^ (0 - ez')) with (2 ^ 50 * A)
      by (subst A; rewrite <- pow2_split by lia; f_equal; lia).
    replace (2 ^ (-49 - ez')) with (2 * A)
      by (subst A; rewrite <- (Z.pow_succ_r 2) by lia; f_equal; lia).
    change (2 ^ 50) with 1125899906842624. lia.
  - split; [done|]. split.
    + refine (Qle_trans _ _ _ _ H2). by vm_compute.
    + apply (Qle_trans _ _ _ H3). by vm_compute.
Qed.
End Rounding.







(** ** Animated star background *)

Section Stars.
Implicit Types (w : World) (d : Node) (p : Path).

Lemma node_at_alter_at f p d n :
  node_at d p = Some n → node_at (alter_at f p d) p = Some (f n).
Proof.
  revert d. induction p as [|i p IH]; intros [e cs]; simpl.
  - by intros [= <-].
  - rewrite list_lookup_alter_eq.
    destruct (cs !! i) as [c|]; [|done]. simpl. apply IH.
Qed.

Lemma random_scaled_in_range c mc ec x :
  num c = S754_finite false mc ec →
  (2 ^ 52 < Z.pos mc < 2 ^ 53)%Z →
  (-1000 <= ec <= 900)%Z →
  (dyadic (Z.pos mc - 1) ec < inject_Z c)%Q →
  is_random_value x = true →
  in_range 0 c false (mul x (num c)).
Proof.
  intros Hc Hmc Hec Hlt Hx. rewrite Hc.
  destruct (mul_const_range mc ec x Hmc Hec Hx) as (H1 & H2 & H3 & _).
  split; [done|]. split; [done|]. by eapply Qle_lt_trans.
Qed.

Lemma random_duration_in_range x :
  is_random_value x = true →
  in_range 5 10 true (add (mul x (num 5)) (num 5)).
Proof.
  intros Hx. pose proof num_5 as H5.
  destruct (mul_const_range 5629499534213120 (-50) x) as (H1 & H2 & H3 & H4);
    [by vm_compute|lia|done|].
  rewrite <- H5 in *. by apply add_five_range.
Qed.

Lemma make_star_spec w :
  (∀ n, is_random_value (random_source w n) = true) →
  ∃ star,
    make_star w = Normal star (with_random_used (λ n, 5 + n) w)
    ∧ star_node true (Elem star []).
Proof.
  intros Hrand. unfold make_star, Math_random. js_unfold.
  cbn [random_source random_used with_random_used].
  cbn [el_style set_style]. rewrite lookup_insert_eq.
  eexists. split; [reflexivity|].
  set (r0 := random_source w (random_used w)).
  set (r1 := random_source w (S (random_used w))).
  set (r2 := random_source w (S (S (random_used w)))).
  set (r3 := random_source w (S (S (S (random_used w))))).
  set (r4 := random_source w (S (S (S (S (random_used w)))))).
  exists (mul r0 (num 100)), (mul r1 (num 100)), (mul r2 (num 3)),
    (mul r3 (num 5)), (add (mul r4 (num 5)) (num 5)).
  cbn [node_children node_el el_tag el_classList el_style set_style
       set_classList createElement].
  split_and!; try done.
  - apply (random_scaled_in_range 100 _ _ _ num_100); [by vm_compute|lia|by vm_compute|apply Hrand].
  - apply (random_scaled_in_range 100 _ _ _ num_100); [by vm_compute|lia|by vm_compute|apply Hrand].
  - apply (random_scaled_in_range 3 _ _ _ num_3); [by vm_compute|lia|by vm_compute|apply Hrand].
  - apply (random_scaled_in_range 5 _ _ _ num_5); [by vm_compute|lia|by vm_compute|apply Hrand].
  - apply random_duration_in_range, Hrand.
Qed.

Lemma star_loop starBackground count :
  ∀ i w e cs,
    node_at (document w) starBackground = Some (Elem e cs) →
    (∀ n, is_random_value (random_source w n) = true) →
    ∃ w' stars,
      for_from i count (λ _,
        star ← make_star;
        modify (with_document (append_child (Elem star []) starBackground))) w
      = Normal () w'
      ∧ node_at (document w') starBackground = Some (Elem e (cs ++ stars)%list)
      ∧ length stars = count
      ∧ Forall (star_node true) stars
      ∧ listeners w' = listeners w ∧ effects w' = effects w
      ∧ pending w' = pending w.
Proof.
  induction count as [|count IH]; intros i w e cs Hsb Hrand.
  - exists w, []. rewrite app_nil_r. by split_and!.
  - cbn [for_from]. js_unfold.
    destruct (make_star_spec w Hrand) as (star & -> & Hstar).
    set (w1 := with_document _ _).
    destruct (IH (S i) w1 e (cs ++ [Elem star []])%list) as (w' & stars & Hrun & Hat & Hlen & Hall & Hl & He & Hp).
    { subst w1. cbn [document with_document]. unfold append_child.
      by rewrite (node_at_alter_at _ _ _ _ Hsb). }
    { done. }
    exists w', (Elem star [] :: stars). split; [done|].
    rewrite <- app_assoc in Hat. split; [done|]. split; [by rewrite <- Hlen|].
    split; [by constructor|]. done.
Qed.

(** C7 (amended): with the container present, the loop appends exactly
    150 star nodes to it; each has top and left in [0,100), a width in
    [0,3) equal to its height, a delay in [0,5), and a duration in
    [5,10], the upper end included. *)
Theorem animate_stars_appends_150 w starBackground :
  getElementById (document w) "star-background" = Some starBackground →
  (∀ n, is_random_value (random_source w n) = true) →
  ∃ w' e cs stars,
    animate_stars w = Normal () w'
    ∧ node_at (document w) starBackground = Some (Elem e cs)
    ∧ node_at (document w') starBackground = Some (Elem e (cs ++ stars)%list)
    ∧ length stars = 150
    ∧ Forall (star_node true) stars.
Proof.
  intros Hsb Hrand. unfold animate_stars. js_unfold. rewrite Hsb.
  destruct (getElementById_Some _ _ _ Hsb) as (e & He & _).
  unfold el_at in He.
  destruct (node_at (document w) starBackground) as [[e' cs]|] eqn:Hat; [|done].
  destruct (star_loop starBackground numberOfStars 0 w e' cs Hat Hrand)
    as (w' & stars & Hrun & Hat' & Hlen & Hall & _).
  exists w', e', cs, stars.
  split; [exact Hrun|]. split; [reflexivity|]. split; [exact Hat'|].
  split; [exact Hlen|exact Hall].
Qed.

Lemma animate_stars_appends_150_witness :
  ∃ w' e cs stars,
    animate_stars sample_world = Normal () w'
    ∧ node_at (document sample_world) [0] = Some (Elem e cs)
    ∧ node_at (document w') [0] = Some (Elem e (cs ++ stars)%list)
    ∧ length stars = 150
    ∧ Forall (star_node true) stars.
Proof.
  apply (animate_stars_appends_150 sample_world [0]).
  - reflexivity.
  - intros n. reflexivity.
Defined.

(** C7 as stated fails: when [Math.random()] returns [1 - 2^-53], the
    product with five rounds to [5 - 2^-50] and the sum with five lies
    halfway between two binary64 numbers and rounds to ten, so the
    duration is not below ten. *)
Lemma star_duration_reaches_ten :
  (∀ n, is_random_value (random_source edge_world n) = true)
  ∧ getElementById (document edge_world) "star-background" = Some [0]
  ∧ add (mul below_one (num 5)) (num 5) = num 10
  ∧ ∃ star,
      node_at (document (run animate_stars edge_world)) [0; 0] = Some star
      ∧ el_style (node_el star) !! "animationDuration" = Some (Seconds (num 10))
      ∧ ¬ star_node false star.
Proof.
  split; [intros n; reflexivity|]. split; [reflexivity|].
  split; [by vm_compute|].
  eexists. split; [by vm_compute|]. split; [by vm_compute|].
  intros (top & left & size & delay & duration & _ & _ & _ & _ & _ & _ & _ & _
          & Hstyle & _ & _ & _ & _ & Hfin & Hlo & Hhi).
  assert (duration = num 10) as ->.
  { vm_compute in Hstyle. vm_compute. congruence. }
  vm_compute in Hhi. discriminate.
Qed.
End Stars.


(** ** Further properties of a configured zone *)

Lemma fire_one target e l w :
  listeners_for target (ev_type e) (listeners w) = [l] →
  fire target e w = guarded (run_listener l e) w.
Proof.
  intros Hl. unfold fire. js_unfold. rewrite Hl. cbn [run_all]. js_unfold.
  unfold guarded. by destruct (run_listener _ _ _).
Qed.

(** Every file of the list becomes one [file] part of the posted form, in
    order; nothing but the request is started. *)
Theorem handleUpload_posts_each_file files url w :
  ∃ w' payload,
    handleUpload files url w = Normal () w'
    ∧ effects w' = (effects w ++ [EFetch url "POST" payload])%list
    ∧ payload.*1 = replicate (length files) "file"
    ∧ payload.*2 = files
    ∧ pending w' = (pending w ++ [UploadReaction])%list
    ∧ document w' = document w
    ∧ listeners w' = listeners w.
Proof.
  rewrite handleUpload_spec. eexists _, _. split; [reflexivity|].
  split; [reflexivity|]. split_and!; try done.
  - induction files as [|f files IH]; [done|]. cbn. by rewrite IH.
  - induction files as [|f files IH]; [done|]. cbn. by rewrite IH.
Qed.

Section ZoneEvents.
Variables (w0 : World) (zoneId inputId : string).
Variables (dropZone fileInput : Path) (input : Element) (uploadUrl : string).
Hypothesis Hzone : getElementById (document w0) zoneId = Some dropZone.
Hypothesis Hinput : getElementById (document w0) inputId = Some fileInput.
Hypothesis Hel : el_at (document w0) fileInput = Some input.
Hypothesis Hurl : el_dataset input !! "uploadUrl" = Some uploadUrl.
Hypothesis Hnonempty : uploadUrl ≠ "".
Hypothesis Hfresh :
  ∀ ty, listeners_for dropZone ty (listeners w0) = []
        ∧ listeners_for fileInput ty (listeners w0) = [].

Let configured : World := run (setupDropZone zoneId inputId) w0.

Lemma configured_listeners target ty :
  (target = dropZone ∨ target = fileInput) →
  listeners_for target ty (listeners configured)
  = listeners_for target ty
      [ mkReg dropZone Click (OnZoneClick fileInput);
        mkReg dropZone Dragover (OnZoneDragover dropZone);
        mkReg dropZone Dragleave (OnZoneDragleave dropZone);
        mkReg dropZone Drop (OnZoneDrop dropZone fileInput uploadUrl);
        mkReg fileInput Change (OnInputChange fileInput uploadUrl) ].
Proof.
  intros Ht. unfold configured, run.
  rewrite (setupDropZone_registers w0 zoneId inputId dropZone fileInput input
             uploadUrl Hzone Hinput Hel Hurl Hnonempty).
  cbn [world_of with_listeners listeners]. unfold listeners_for.
  rewrite filter_app, fmap_app.
  assert (Hnil : reg_listener <$>
            filter (λ r, reg_target r = target ∧ reg_type r = ty) (listeners w0) = []).
  { destruct Ht as [-> | ->]; apply Hfresh. }
  by rewrite Hnil.
Qed.

Lemma configured_document : document configured = document w0.
Proof.
  unfold configured, run.
  by rewrite (setupDropZone_registers w0 zoneId inputId dropZone fileInput input
                uploadUrl Hzone Hinput Hel Hurl Hnonempty).
Qed.

Lemma zone_listeners ty :
  listeners_for dropZone ty (listeners configured)
  = match ty with
    | Click => [OnZoneClick fileInput]
    | Dragover => [OnZoneDragover dropZone]
    | Dragleave => [OnZoneDragleave dropZone]
    | Drop => [OnZoneDrop dropZone fileInput uploadUrl]
    | Change => if decide (fileInput = dropZone)
                then [OnInputChange fileInput uploadUrl] else []
    end.
Proof.
  rewrite configured_listeners by (by left). unfold listeners_for.
  rewrite !filter_cons, filter_nil. cbn [reg_target reg_type].
  destruct ty; repeat case_decide; destruct_and?; try done; exfalso; tauto.
Qed.

Lemma input_listeners :
  listeners_for fileInput Change (listeners configured)
  = [OnInputChange fileInput uploadUrl].
Proof.
  rewrite configured_listeners by (by right). unfold listeners_for.
  rewrite !filter_cons, filter_nil. cbn [reg_target reg_type].
  repeat case_decide; destruct_and?; try done; exfalso; tauto.
Qed.


(** A drop carrying any non-empty file list assigns the list to the
    input, posts every file in order under the field name [file], and
    leaves the zone without the [dragover] class. *)
Theorem drop_uploads_all_files files :
  files ≠ [] →
  ∃ w1 zone,
    fire dropZone (mkEvent Drop files) configured = Normal () w1
    ∧ effects w1
      = (effects configured
         ++ [EPreventDefault;
             EFetch uploadUrl "POST" ((λ f, ("file", f)) <$> files)])%list
    ∧ pending w1 = (pending configured ++ [UploadReaction])%list
    ∧ el_files <$> el_at (document w1) fileInput = Some files
    ∧ el_at (document w1) dropZone = Some zone
    ∧ "dragover" ∉ el_classList zone.
Proof.
  intros Hfiles.
  rewrite (fire_one _ _ (OnZoneDrop dropZone fileInput uploadUrl))
    by apply (zone_listeners Drop).
  unfold guarded, run_listener. js_unfold. cbn [ev_files].
  rewrite bool_decide_true by (by destruct files).
  rewrite handleUpload_spec.
  destruct (getElementById_Some _ _ _ Hzone) as (z & Hz & _).
  set (unmark := λ e : Element,
         set_classList (token_remove "dragover" (el_classList e)) e).
  assert (Hz1 : el_at (update_el unmark dropZone (document w0)) dropZone
                = Some (unmark z)) by (by apply el_at_update_el_eq).
  assert (Hin1 : ∃ e1, el_at (update_el unmark dropZone (document w0)) fileInput
                       = Some e1).
  { rewrite el_at_update_el. case_decide; rewrite Hel; eauto. }
  destruct Hin1 as [e1 Hin1].
  assert (Hz2 : ∃ z2, el_at (update_el (set_files files) fileInput
                               (update_el unmark dropZone (document w0))) dropZone
                      = Some z2 ∧ el_classList z2 = el_classList (unmark z)).
  { rewrite el_at_update_el. case_decide; rewrite Hz1; eauto. }
  destruct Hz2 as (z2 & Hz2 & Hcl).
  eexists _, z2. split; [reflexivity|].
  cbn [effects pending document with_pending with_effects with_document].
  rewrite !configured_document.
  split_and!.
  - by rewrite <- app_assoc.
  - done.
  - by rewrite (el_at_update_el_eq _ _ _ e1).
  - done.
  - rewrite Hcl. cbn [unmark el_classList set_classList].
    rewrite elem_of_token_remove. tauto.
Qed.

(** The change listener uploads the files selected in the input, and does
    nothing when none is selected. *)
Theorem change_uploads_selected_files files :
  fire fileInput (mkEvent Change files) configured
  = if bool_decide (el_files input = [])
    then Normal () configured
    else Normal ()
           (with_pending (λ l, (l ++ [UploadReaction])%list)
              (with_effects
                 (λ l, (l ++ [EFetch uploadUrl "POST"
                                ((λ f, ("file", f)) <$> el_files input)])%list)
                 configured)).
Proof.
  rewrite (fire_one _ _ (OnInputChange fileInput uploadUrl)) by apply input_listeners.
  unfold guarded, run_listener. js_unfold.
  rewrite configured_document, Hel.
  cbn [fmap option_fmap option_map default from_option id].
  destruct (el_files input) as [|f fs] eqn:Hf.
  - by rewrite bool_decide_false, bool_decide_true by (cbn; lia || done).
  - rewrite bool_decide_true by (cbn; lia).
    rewrite bool_decide_false by done.
    by rewrite handleUpload_spec.
Qed.

(** Dragging over the zone marks it with [dragover] (once, however many
    dragover events arrive) and prevents the default action each time;
    leaving removes the mark and keeps every other class. *)
Theorem dragover_then_dragleave zone files :
  el_at (document w0) dropZone = Some zone →
  ∃ w1 w2 w3 z1 z2 z3,
    fire dropZone (mkEvent Dragover files) configured = Normal () w1
    ∧ fire dropZone (mkEvent Dragover files) w1 = Normal () w2
    ∧ fire dropZone (mkEvent Dragleave files) w2 = Normal () w3
    ∧ el_at (document w1) dropZone = Some z1
    ∧ el_at (document w2) dropZone = Some z2
    ∧ el_at (document w3) dropZone = Some z3
    ∧ (∀ t, t ∈ el_classList z1 ↔ t = "dragover" ∨ t ∈ el_classList zone)
    ∧ el_classList z2 = el_classList z1
    ∧ (∀ t, t ∈ el_classList z3 ↔ t ≠ "dragover" ∧ t ∈ el_classList zone)
    ∧ effects w3 = (effects configured ++ [EPreventDefault; EPreventDefault])%list
    ∧ pending w3 = pending configured.
Proof.
  intros Hz.
  set (mark := λ e : Element,
         set_classList (token_add "dragover" (el_classList e)) e).
  set (unmark := λ e : Element,
         set_classList (token_remove "dragover" (el_classList e)) e).
  set (w1 := with_document (update_el mark dropZone)
               (with_effects (λ l, (l ++ [EPreventDefault])%list) configured)).
  set (w2 := with_document (update_el mark dropZone)
               (with_effects (λ l, (l ++ [EPreventDefault])%list) w1)).
  set (w3 := with_document (update_el unmark dropZone) w2).
  exists w1, w2, w3, (mark zone), (mark (mark zone)), (unmark (mark (mark zone))).
  assert (H1 : el_at (document w1) dropZone = Some (mark zone)).
  { subst w1. cbn [document with_document with_effects].
    rewrite configured_document. by apply el_at_update_el_eq. }
  assert (H2 : el_at (document w2) dropZone = Some (mark (mark zone))).
  { subst w2. cbn [document with_document with_effects].
    by apply el_at_update_el_eq. }
  assert (H3 : el_at (document w3) dropZone = Some (unmark (mark (mark zone)))).
  { subst w3. cbn [document with_document with_effects].
    by apply el_at_update_el_eq. }
  split_and!; try done.
  - by rewrite (fire_one _ _ (OnZoneDragover dropZone))
      by apply (zone_listeners Dragover).
  - by rewrite (fire_one _ _ (OnZoneDragover dropZone))
      by apply (zone_listeners Dragover).
  - by rewrite (fire_one _ _ (OnZoneDragleave dropZone))
      by apply (zone_listeners Dragleave).
  - intros t. cbn [mark el_classList set_classList]. apply elem_of_token_add.
  - cbn [mark el_classList set_classList].
    unfold token_add at 1. unfold token_contains.
    rewrite bool_decide_true; [done|]. apply elem_of_token_add. by left.
  - intros t. cbn [mark unmark el_classList set_classList].
    rewrite elem_of_token_remove, !elem_of_token_add. tauto.
  - subst w3 w2 w1. cbn [effects with_document with_effects].
    by rewrite <- app_assoc.
Qed.

(** [setupDropZone] is not idempotent: after a second successful setup of
    the same zone one drop starts two uploads of the same files. *)
Theorem setupDropZone_twice_uploads_twice files :
  files ≠ [] →
  let twice := run (setupDropZone zoneId inputId) configured in
  ∃ w1,
    fire dropZone (mkEvent Drop files) twice = Normal () w1
    ∧ effects w1
      = (effects twice
         ++ [EPreventDefault;
             EFetch uploadUrl "POST" ((λ f, ("file", f)) <$> files);
             EPreventDefault;
             EFetch uploadUrl "POST" ((λ f, ("file", f)) <$> files)])%list
    ∧ pending w1 = (pending twice ++ [UploadReaction; UploadReaction])%list.
Proof.
  intros Hfiles twice.
  assert (Hreg : setupDropZone zoneId inputId configured
                 = Normal ()
                     (with_listeners
                        (λ ls, (ls ++ [ mkReg dropZone Click (OnZoneClick fileInput);
                                        mkReg dropZone Dragover (OnZoneDragover dropZone);
                                        mkReg dropZone Dragleave (OnZoneDragleave dropZone);
                                        mkReg dropZone Drop (OnZoneDrop dropZone fileInput uploadUrl);
                                        mkReg fileInput Change (OnInputChange fileInput uploadUrl) ])%list)
                        configured)).
  { apply (setupDropZone_registers configured zoneId inputId dropZone fileInput input);
      rewrite ?configured_document; done. }
  assert (Hls : listeners_for dropZone Drop (listeners twice)
                = [OnZoneDrop dropZone fileInput uploadUrl;
                   OnZoneDrop dropZone fileInput uploadUrl]).
  { subst twice. unfold run. rewrite Hreg.
    cbn [world_of with_listeners listeners].
    pose proof (zone_listeners Drop) as Hd. unfold listeners_for in *.
    rewrite filter_app, fmap_app, Hd.
    rewrite !filter_cons, filter_nil. cbn [reg_target reg_type].
    repeat case_decide; destruct_and?; try done; exfalso; tauto. }
  unfold fire. js_unfold. cbn [ev_type]. rewrite Hls.
  cbn [run_all]. js_unfold. unfold guarded, run_listener. js_unfold.
  cbn [ev_files]. rewrite bool_decide_true by (by destruct files).
  rewrite !handleUpload_spec.
  eexists. split; [reflexivity|].
  cbn [effects pending with_pending with_effects with_document].
  split; by rewrite <- !app_assoc.
Qed.
End ZoneEvents.


(** ** Further properties of the modal operations *)

Section ModalExtras.
Implicit Types (w : World) (d : Node) (p q : Path).

Lemma run_modal_op_doc w modalId op modal :
  getElementById (document w) modalId = Some modal →
  same_styles_ids
    (update_el (set_style "display" (display_after op)) modal (document w))
    (document (run (run_modal_op modalId op) w)).
Proof.
  intros Hm. destruct op as [videoSrc|]; cbn [run_modal_op display_after run].
  - by apply openModal_doc.
  - by apply closeModal_doc.
Qed.

(** Whatever sequence of open and close calls is made for an existing
    modal, its visibility is the one set by the last call. *)
Theorem modal_last_operation_wins w modalId modal ops op :
  getElementById (document w) modalId = Some modal →
  ∃ s, style_at (document (run_modal_ops modalId (ops ++ [op])%list w)) modal = Some s
       ∧ s !! "display" = Some (display_after op).
Proof.
  revert w. induction ops as [|o ops IH]; intros w Hm.
  - cbn [app run_modal_ops].
    destruct (run_modal_op_doc w modalId op modal Hm) as [Hs _]. rewrite Hs.
    destruct (getElementById_Some _ _ _ Hm) as (e & He & _).
    by eapply style_at_set_display.
  - cbn [app run_modal_ops]. apply IH.
    destruct (run_modal_op_doc w modalId o modal Hm) as [_ Hi].
    rewrite Hi. by rewrite getElementById_update_el.
Qed.

Lemma modal_last_operation_wins_witness :
  ∃ s, style_at (document (run_modal_ops "videoPlayerModal"
                             ([Close; Open (Some "/media/intro.mp4"); Close]
                              ++ [Open None])%list sample_world)) [2] = Some s
       ∧ s !! "display" = Some (Keyword "block").
Proof.
  apply (modal_last_operation_wins sample_world "videoPlayerModal" [2]
           [Close; Open (Some "/media/intro.mp4"); Close] (Open None)).
  reflexivity.
Defined.

(** Outside the video modal, or with an empty or missing source, opening
    a modal only sets the display of the element found: the source is
    ignored and no playback starts. *)
Theorem openModal_ignores_source w modalId videoSrc modal :
  getElementById (document w) modalId = Some modal →
  modalId ≠ "videoPlayerModal" ∨ videoSrc = None ∨ videoSrc = Some "" →
  ∃ w',
    openModal modalId videoSrc w = Normal () w'
    ∧ effects w' = effects w
    ∧ document w'
      = update_el (set_style "display" (Keyword "block")) modal (document w)
    ∧ ∀ q, q ≠ modal → el_at (document w') q = el_at (document w) q.
Proof.
  intros Hm Hcase. unfold openModal. js_unfold. rewrite Hm.
  assert (Hc : bool_decide (modalId = "videoPlayerModal") && truthy videoSrc = false).
  { destruct Hcase as [Hne|[-> | ->]].
    - by rewrite bool_decide_false.
    - apply andb_false_r.
    - apply andb_false_r. }
  rewrite Hc. eexists. split; [reflexivity|].
  cbn [effects document with_document]. split_and!; try done.
  intros q Hq. by apply el_at_update_el_ne.
Qed.

Lemma openModal_ignores_source_witness :
  ∃ w',
    openModal "loginModal" (Some "/media/intro.mp4") sample_world = Normal () w'
    ∧ effects w' = effects sample_world
    ∧ document w'
      = update_el (set_style "display" (Keyword "block")) [1] (document sample_world)
    ∧ ∀ q, q ≠ [1] → el_at (document w') q = el_at (document sample_world) q.
Proof.
  apply (openModal_ignores_source sample_world "loginModal" (Some "/media/intro.mp4") [1]).
  - reflexivity.
  - left. discriminate.
Defined.

Lemma closeModal_video w modal video ev :
  getElementById (document w) "videoPlayerModal" = Some modal →
  getElementById (document w) "videoPlayer" = Some video →
  el_at (document w) video = Some ev →
  is_media ev = true →
  ∃ w2 ev2,
    closeModal "videoPlayerModal" w = Normal () w2
    ∧ el_at (document w2) video = Some ev2
    ∧ el_src ev2 = "" ∧ el_paused ev2 = true
    ∧ effects w2 = (effects w ++ [EPause video])%list.
Proof.
  intros Hm Hv He Hmedia. unfold closeModal, pause. js_unfold. rewrite Hm.
  rewrite bool_decide_true by done. cbn [with_document document].
  rewrite getElementById_update_el, Hv by done.
  cbn [with_document document].
  rewrite !(prop_update_el_preserved is_media) by done.
  rewrite He. cbn [fmap option_fmap option_map default]. rewrite Hmedia.
  assert (∃ e0, el_at (update_el (set_style "display" (Keyword "none")) modal
                         (document w)) video = Some e0)
    as [e0 He0] by (rewrite el_at_update_el; case_decide; rewrite He; eauto).
  eexists _, (_ (_ e0)). split; [done|].
  cbn [with_document with_effects document effects].
  split; [apply el_at_update_el_eq; by apply el_at_update_el_eq|done].
Qed.

(** A click on the backdrop of the video modal stops the video: playback
    is paused and the source cleared, as by [closeModal]. *)
Theorem backdrop_click_stops_video w target et video ev :
  el_at (document w) target = Some et →
  token_contains "modal" (el_classList et) = true →
  el_id et = "videoPlayerModal" →
  getElementById (document w) "videoPlayer" = Some video →
  el_at (document w) video = Some ev →
  is_media ev = true →
  ∃ w' modal ev',
    window_onclick target w = Normal () w'
    ∧ getElementById (document w) "videoPlayerModal" = Some modal
    ∧ el_at (document w') video = Some ev'
    ∧ el_src ev' = "" ∧ el_paused ev' = true
    ∧ effects w' = (effects w ++ [EPause video])%list.
Proof.
  intros He Hclass Hid Hv Hev Hmedia.
  assert (Hm : ∃ modal, getElementById (document w) "videoPlayerModal" = Some modal).
  { unfold getElementById. rewrite bool_decide_false by done.
    destruct (find_node (has_id "videoPlayerModal") (document w)) as [m|] eqn:Hf;
      [by eexists|].
    exfalso. revert Hf He Hid. clear. generalize (document w). intros d.
    revert target. induction d as [e cs IH] using Node_ind. intros target.
    cbn [find_node]. unfold has_id at 1. case_bool_decide as Hd; [done|].
    destruct target as [|i target]; unfold el_at; cbn [node_at node_children].
    { intros _ [= <-] Hid. done. }
    destruct (cs !! i) as [c|] eqn:Hc; [|done]. intros Hfirst Hat Hid.
    rewrite Forall_lookup in IH. apply (IH i c Hc target); [|done|done].
    clear -Hfirst Hc. revert i Hc Hfirst. generalize 0%nat.
    induction cs as [|c0 cs IHcs]; intros k i Hc; [done|]. cbn [first_in].
    destruct (find_node _ c0) eqn:H0; [done|]. destruct i as [|i].
    - cbn in Hc. by injection Hc as <-.
    - cbn in Hc. by apply (IHcs (S k) i). }
  destruct Hm as [modal Hm].
  destruct (closeModal_video w modal video ev Hm Hv Hev Hmedia)
    as (w2 & ev2 & Hrun & Hat & Hsrc & Hp & Heff).
  exists w2, modal, ev2. split_and!; try done.
  unfold window_onclick. js_unfold. rewrite He.
  cbn [fmap option_fmap option_map default from_option id].
  rewrite Hclass, He.
  cbn [fmap option_fmap option_map default from_option id].
  by rewrite Hid.
Qed.

Lemma backdrop_click_stops_video_witness :
  ∃ w' modal ev',
    window_onclick [2] sample_world = Normal () w'
    ∧ getElementById (document sample_world) "videoPlayerModal" = Some modal
    ∧ el_at (document w') [2; 0] = Some ev'
    ∧ el_src ev' = "" ∧ el_paused ev' = true
    ∧ effects w' = (effects sample_world ++ [EPause [2; 0]])%list.
Proof.
  apply (backdrop_click_stops_video sample_world [2]
           (el "div" "videoPlayerModal" ["modal"]) [2; 0]
           (el "video" "videoPlayer" [])); reflexivity.
Defined.
End ModalExtras.

(** ** Further properties of the toggle, the background and the start-up *)

Section MoreExtras.
Implicit Types (w : World) (d : Node) (p q : Path).

(** One call puts the input type and the icon class in lockstep, whatever
    they were before, touches no other element and has no other effect. *)
Theorem togglePassword_establishes_lockstep w button input icon ein eic :
  previousElementSibling (document w) button = Some input →
  querySelector (document w) button "i" = Some icon →
  el_at (document w) input = Some ein →
  el_at (document w) icon = Some eic →
  ∃ w1 ein1 eic1,
    togglePassword button w = Normal () w1
    ∧ el_at (document w1) input = Some ein1
    ∧ el_at (document w1) icon = Some eic1
    ∧ in_lockstep ein1 eic1
    ∧ effects w1 = effects w
    ∧ (∀ q, q ≠ input → q ≠ icon → el_at (document w1) q = el_at (document w) q).
Proof.
  intros Hs Hq Hin Hic.
  pose proof (sibling_not_descendant _ _ _ _ _ Hs Hq) as Hne.
  destruct (toggle_doc_el_at input icon _ _ _ Hne Hin Hic) as [Hin1 Hic1].
  eexists _, _, _. split; [by apply togglePassword_ok|].
  cbn [document with_document effects].
  split; [exact Hin1|]. split; [exact Hic1|]. split_and!.
  - unfold in_lockstep. cbn [el_type set_type el_classList set_classList].
    destruct (bool_decide (el_type ein = Some "password")).
    + right. split; [done|].
      rewrite !elem_of_token_add, !elem_of_token_remove.
      split; [by left|]. intros [[=]|[? _]]. done.
    + left. split; [done|].
      rewrite !elem_of_token_add, !elem_of_token_remove.
      split; [by left|]. intros [[=]|[? _]]. done.
  - done.
  - intros q Hq1 Hq2. cbn [document with_document]. unfold toggle_doc.
    destruct (bool_decide (default None _ = _));
      by rewrite !el_at_update_el_ne by done.
Qed.

Lemma togglePassword_establishes_lockstep_witness :
  ∃ w1 ein1 eic1,
    togglePassword [1] slashed_world = Normal () w1
    ∧ el_at (document w1) [0] = Some ein1
    ∧ el_at (document w1) [1; 0] = Some eic1
    ∧ in_lockstep ein1 eic1
    ∧ effects w1 = effects slashed_world
    ∧ (∀ q, q ≠ [0] → q ≠ [1; 0] →
            el_at (document w1) q = el_at (document slashed_world) q).
Proof.
  apply (togglePassword_establishes_lockstep slashed_world [1] [0] [1; 0]
           (input_el "password" "password" ∅) (el "i" "" ["fas"; "fa-eye-slash"]));
    reflexivity.
Defined.

Lemma el_at_append_child c p d q e :
  el_at d q = Some e → el_at (append_child c p d) q = Some e.
Proof.
  unfold el_at, append_child. revert d q.
  induction p as [|i p IH]; intros [e0 cs] [|j q]; cbn [alter_at node_at node_children node_el].
  - done.
  - destruct (cs !! j) as [c'|] eqn:Hj; [|done].
    by rewrite (lookup_app_l_Some _ _ _ _ Hj).
  - done.
  - destruct (cs !! j) as [c'|] eqn:Hj; [|done].
    destruct (decide (i = j)) as [->|Hij].
    + rewrite list_lookup_alter_eq, Hj. cbn [fmap option_fmap option_map]. apply IH.
    + by rewrite list_lookup_alter_ne, Hj.
Qed.

Lemma first_in_snoc_None {A} (s : A → option Path) cs c k :
  s c = None → first_in s (cs ++ [c])%list k = first_in s cs k.
Proof.
  intros Hc. revert k. induction cs as [|c0 cs IH]; intros k; cbn [app first_in].
  - by rewrite Hc.
  - destruct (s c0); [done|apply IH].
Qed.

Lemma find_node_append_child P c p d :
  find_node P c = None →
  find_node P (append_child c p d) = find_node P d.
Proof.
  intros Hc. unfold append_child. revert d.
  induction p as [|i p IH]; intros [e cs]; cbn [alter_at find_node node_el node_children].
  - destruct (P e); [done|]. by apply first_in_snoc_None.
  - destruct (P e); [done|]. by apply first_in_alter.
Qed.

Lemma make_star_runs w :
  ∃ star, make_star w = Normal star (with_random_used (λ n, 5 + n) w)
          ∧ el_id star = "".
Proof.
  unfold make_star, Math_random. js_unfold.
  cbn [random_source random_used with_random_used el_style set_style].
  rewrite lookup_insert_eq. eexists. split; reflexivity.
Qed.

Lemma star_loop_frame starBackground count :
  ∀ i w,
    ∃ w',
      for_from i count (λ _,
        star ← make_star;
        modify (with_document (append_child (Elem star []) starBackground))) w
      = Normal () w'
      ∧ extends w w'
      ∧ random_used w' = (5 * count + random_used w)%nat.
Proof.
  induction count as [|count IH]; intros i w.
  - exists w. split; [done|]. split; [by repeat split|]. done.
  - cbn [for_from]. js_unfold.
    destruct (make_star_runs w) as (star & -> & Hid).
    set (w1 := with_document _ _).
    destruct (IH (S i) w1) as (w' & Hrun & (Hids & Hels & Hl & He & Hp) & Hr).
    exists w'. split; [done|]. split.
    + split_and!; try done.
      * intros id. rewrite Hids. subst w1. cbn [document with_document with_random_used].
        unfold getElementById. case_bool_decide; [done|].
        apply find_node_append_child. cbn [find_node first_in].
        unfold has_id. rewrite Hid. by rewrite bool_decide_false.
      * intros q e Hq. apply Hels. subst w1.
        cbn [document with_document with_random_used]. by apply el_at_append_child.
    + rewrite Hr. subst w1. cbn [random_used with_document with_random_used]. lia.
Qed.

Lemma animate_stars_extends w :
  ∃ w',
    animate_stars w = Normal () w'
    ∧ extends w w'
    ∧ random_used w'
      = (match getElementById (document w) "star-background" with
         | Some _ => 750
         | None => 0
         end + random_used w)%nat.
Proof.
  unfold animate_stars. js_unfold.
  destruct (getElementById (document w) "star-background") as [sb|].
  - destruct (star_loop_frame sb numberOfStars 0 w) as (w' & Hrun & Hext & Hr).
    exists w'. split; [exact Hrun|]. split; [exact Hext|]. exact Hr.
  - exists w. split; [done|]. split; [by repeat split|]. done.
Qed.

(** The background loop changes nothing the rest of the script relies on:
    every id still names the same element, every element that was there
    is unchanged, nothing is logged or registered; it draws five random
    numbers per star, none when the container is missing. *)
Theorem animate_stars_frame w :
  ∃ w',
    animate_stars w = Normal () w'
    ∧ extends w w'
    ∧ random_used w'
      = (match getElementById (document w) "star-background" with
         | Some _ => 750
         | None => 0
         end + random_used w)%nat.
Proof.
  destruct (animate_stars_extends w) as (w' & Hrun & Hext & Hused).
  exists w'. split; [exact Hrun|]. split; [exact Hext|exact Hused].
Qed.

Lemma setupDropZone_extends w1 w2 zoneId inputId :
  extends w1 w2 →
  ∃ w1' w2',
    setupDropZone zoneId inputId w1 = Normal () w1'
    ∧ setupDropZone zoneId inputId w2 = Normal () w2'
    ∧ extends w1' w2'.
Proof.
  intros (Hids & Hels & Hl & He & Hp). unfold setupDropZone. js_unfold.
  rewrite !Hids.
  destruct (getElementById (document w1) zoneId) as [dz|];
    [|eexists _, _; split; [done|]; split; [done|]; by repeat split].
  destruct (getElementById (document w1) inputId) as [fi|] eqn:Hfi;
    [|eexists _, _; split; [done|]; split; [done|]; by repeat split].
  destruct (getElementById_Some _ _ _ Hfi) as (e & Hel & _).
  rewrite Hel, (Hels _ _ Hel).
  destruct (negb _);
    eexists _, _; (split; [reflexivity|]); (split; [reflexivity|]).
  - by repeat split.
  - unfold extends. cbn [document listeners effects pending with_listeners].
    split_and!; try done. by rewrite Hl.
Qed.

(** The start-up handler never throws, logs nothing, and registers the
    listeners that the three [setupDropZone] calls would register on the
    page as it was before the stars were added. *)
Theorem main_wires_zones_regardless_of_stars w :
  ∃ w',
    main w = Normal () w'
    ∧ listeners w'
      = listeners
          (run (setupDropZone "anime-drop-zone" "anime-input")
             (run (setupDropZone "video-drop-zone" "video-input")
                (run (setupDropZone "file-drop-zone" "file-input") w)))
    ∧ effects w' = effects w
    ∧ pending w' = pending w.
Proof.
  destruct (animate_stars_extends w) as (ws & Hstars & Hext & _).
  destruct (setupDropZone_extends w ws "file-drop-zone" "file-input" Hext)
    as (a1 & b1 & Ha1 & Hb1 & H1).
  destruct (setupDropZone_extends a1 b1 "video-drop-zone" "video-input" H1)
    as (a2 & b2 & Ha2 & Hb2 & H2).
  destruct (setupDropZone_extends a2 b2 "anime-drop-zone" "anime-input" H2)
    as (a3 & b3 & Ha3 & Hb3 & H3).
  exists b3. unfold main, run. js_unfold.
  rewrite Hstars, Hb1, Hb2, Hb3, Ha1. cbn [world_of]. rewrite Ha2. cbn [world_of].
  rewrite Ha3. cbn [world_of].
  destruct H3 as (_ & _ & Hl & He & Hp). split; [done|]. split; [done|].
  assert (Hkeep : ∀ z i v, effects (run (setupDropZone z i) v) = effects v
                           ∧ pending (run (setupDropZone z i) v) = pending v).
  { intros z i v. unfold run, setupDropZone. js_unfold.
    destruct (getElementById (document v) z); [|done].
    destruct (getElementById (document v) i); [|done].
    by destruct (negb _). }
  pose proof (Hkeep "file-drop-zone" "file-input" w) as [E1 P1].
  pose proof (Hkeep "video-drop-zone" "video-input" a1) as [E2 P2].
  pose proof (Hkeep "anime-drop-zone" "anime-input" a2) as [E3 P3].
  unfold run in *. rewrite Ha1 in E1, P1. rewrite Ha2 in E2, P2. rewrite Ha3 in E3, P3.
  cbn [world_of] in *. split; congruence.
Qed.
End MoreExtras.

Section ZoneEventExamples.
Ltac sample_zone :=
  first [ reflexivity | discriminate | (intros ty; split; reflexivity) ].


Lemma drop_uploads_all_files_witness :
  ∃ w1 zone,
    fire [3] (mkEvent Drop [fileA; fileB; fileA]) sample_configured = Normal () w1
    ∧ effects w1
      = (effects sample_configured
         ++ [EPreventDefault;
             EFetch "/upload" "POST"
               ((λ f, ("file", f)) <$> [fileA; fileB; fileA])])%list
    ∧ pending w1 = (pending sample_configured ++ [UploadReaction])%list
    ∧ el_files <$> el_at (document w1) [3; 0] = Some [fileA; fileB; fileA]
    ∧ el_at (document w1) [3] = Some zone
    ∧ "dragover" ∉ el_classList zone.
Proof.
  apply (drop_uploads_all_files sample_world "file-drop-zone" "file-input"
           [3] [3; 0] (input_el "file-input" "file" {[ "uploadUrl" := "/upload" ]})
           "/upload"); sample_zone.
Defined.

Lemma change_uploads_selected_files_witness :
  fire [3; 0] (mkEvent Change [])
    (run (setupDropZone "file-drop-zone" "file-input") chosen_world)
  = Normal ()
      (with_pending (λ l, (l ++ [UploadReaction])%list)
         (with_effects
            (λ l, (l ++ [EFetch "/upload" "POST" [("file", fileA)]])%list)
            (run (setupDropZone "file-drop-zone" "file-input") chosen_world))).
Proof.
  apply (change_uploads_selected_files chosen_world "file-drop-zone" "file-input"
           [3] [3; 0] chosen_input "/upload"); sample_zone.
Defined.

Lemma dragover_then_dragleave_witness :
  ∃ w1 w2 w3 z1 z2 z3,
    fire [3] (mkEvent Dragover []) sample_configured = Normal () w1
    ∧ fire [3] (mkEvent Dragover []) w1 = Normal () w2
    ∧ fire [3] (mkEvent Dragleave []) w2 = Normal () w3
    ∧ el_at (document w1) [3] = Some z1
    ∧ el_at (document w2) [3] = Some z2
    ∧ el_at (document w3) [3] = Some z3
    ∧ (∀ t, t ∈ el_classList z1 ↔ t = "dragover" ∨ t ∈ ["drop-zone"])
    ∧ el_classList z2 = el_classList z1
    ∧ (∀ t, t ∈ el_classList z3 ↔ t ≠ "dragover" ∧ t ∈ ["drop-zone"])
    ∧ effects w3
      = (effects sample_configured ++ [EPreventDefault; EPreventDefault])%list
    ∧ pending w3 = pending sample_configured.
Proof.
  apply (dragover_then_dragleave sample_world "file-drop-zone" "file-input"
           [3] [3; 0] (input_el "file-input" "file" {[ "uploadUrl" := "/upload" ]})
           "/upload" ltac:(sample_zone) ltac:(sample_zone) ltac:(sample_zone)
           ltac:(sample_zone) ltac:(sample_zone) ltac:(sample_zone)
           (el "div" "file-drop-zone" ["drop-zone"]) []).
  reflexivity.
Defined.

Lemma setupDropZone_twice_uploads_twice_witness :
  let twice := run (setupDropZone "file-drop-zone" "file-input") sample_configured in
  ∃ w1,
    fire [3] (mkEvent Drop [fileA]) twice = Normal () w1
    ∧ effects w1
      = (effects twice
         ++ [EPreventDefault;
             EFetch "/upload" "POST" ((λ f, ("file", f)) <$> [fileA]);
             EPreventDefault;
             EFetch "/upload" "POST" ((λ f, ("file", f)) <$> [fileA])])%list
    ∧ pending w1 = (pending twice ++ [UploadReaction; UploadReaction])%list.
Proof.
  apply (setupDropZone_twice_uploads_twice sample_world "file-drop-zone" "file-input"
           [3] [3; 0] (input_el "file-input" "file" {[ "uploadUrl" := "/upload" ]})
           "/upload"); sample_zone.
Defined.
End ZoneEventExamples.
